(** * TileEx: period inference and tile extraction

    A shallow embedding of [main.go] (both versions kept in the repository)
    and proofs about its period detectors, the frequency aggregator, the
    threshold selector and the crop extractor.

    Conventions.
    - Go's [int] is taken at its 64-bit width (amd64, arm64); every
      arithmetic operation of the source that can leave the range is
      written with its wrap-around.  [uint32] wraps modulo [2^32].
    - Slice indexing is checked: an index outside the slice is a run-time
      panic, as is an integer division by zero.
    - [float64] is IEEE binary64, given by Rocq's primitive floats. *)

From Stdlib Require Import ZArith Lia Floats Ascii.
From stdpp Require Import gmap list sorting.

Local Open Scope Z_scope.

(** ** Outcomes of running Go code *)

Inductive result (A : Type) : Type :=
  | Ok (a : A)
  | Panic
  | OutOfFuel.
Arguments Ok {A} a.
Arguments Panic {A}.
Arguments OutOfFuel {A}.

#[export] Instance result_ret : MRet result := fun A a => Ok a.
#[export] Instance result_bind : MBind result := fun A B f m =>
  match m with
  | Ok a => f a
  | Panic => Panic
  | OutOfFuel => OutOfFuel
  end.

(** A run "reports an error" when it does not end with a value. *)
Definition reports_error {A} (r : result A) : Prop :=
  match r with Ok _ => False | _ => True end.

(** ** Machine integers *)

Definition wrap_signed (bits z : Z) : Z :=
  (z + 2 ^ (bits - 1)) mod 2 ^ bits - 2 ^ (bits - 1).

(** Go's [int]. *)
Abbreviation wrap_int := (wrap_signed 64).
Definition int_range (z : Z) : Prop := - 2 ^ 63 <= z < 2 ^ 63.

(** Go's [uint32]. *)
Definition wrap_uint32 (z : Z) : Z := z mod 2 ^ 32.

(** [a % b]: truncated remainder, panics when [b = 0]. *)
Definition irem (a b : Z) : result Z :=
  if b =? 0 then Panic else Ok (Z.rem a b).

(** [l[i]] and [l[i] = a] on a slice. *)
Definition index {A} (l : list A) (i : Z) : result A :=
  if i <? 0 then Panic
  else match l !! Z.to_nat i with
       | Some a => Ok a
       | None => Panic
       end.

Definition store {A} (l : list A) (i : Z) (a : A) : result (list A) :=
  if (0 <=? i) && (i <? Z.of_nat (length l))
  then Ok (<[Z.to_nat i := a]> l)
  else Panic.

Definition len {A} (l : list A) : Z := Z.of_nat (length l).

(** ** Colors *)

Record Color : Type := mkColor { R : Z; G : Z; B : Z }.

#[export] Instance Color_eq_dec : EqDecision Color.
Proof. solve_decision. Defined.

(** [x == y] on the struct: every field is compared. *)
Definition Color_eqb (x y : Color) : bool :=
  (R x =? R y) && (G x =? G y) && (B x =? B y).

(** Channels as [img.At(x, y).RGBA()] yields them: 16 bits in a [uint32]. *)
Definition channel16 (c : Color) : Prop :=
  0 <= R c < 2 ^ 16 /\ 0 <= G c < 2 ^ 16 /\ 0 <= B c < 2 ^ 16.

(** [ColorDiff] for an [int] of [bits] bits: the subtraction is done in
    [uint32], the conversion to [int] and the products and sums in [int]. *)
Definition ColorDiff_at (bits : Z) (x y : Color) : Z :=
  let R := wrap_signed bits (wrap_uint32 (R x - R y)) in
  let G := wrap_signed bits (wrap_uint32 (G x - G y)) in
  let B := wrap_signed bits (wrap_uint32 (B x - B y)) in
  wrap_signed bits
    (wrap_signed bits (wrap_signed bits (R * R) + wrap_signed bits (G * G))
     + wrap_signed bits (B * B)).

Definition ColorDiff (x y : Color) : Z := ColorDiff_at 64 x y.

(** The squared Euclidean distance, over the integers. *)
Definition sqdist (x y : Color) : Z :=
  (R x - R y) ^ 2 + (G x - G y) ^ 2 + (B x - B y) ^ 2.

(** ** The lossy detector *)

(** The inner [range] loop of [ArrayPeriodicityJPGPlus]: [rest] is what
    is left of [colors], [idx] the position of its head. *)
Fixpoint shiftSum_loop (colors rest : list Color) (k idx sum : Z) : result Z :=
  match rest with
  | [] => Ok sum
  | color :: rest' =>
      i ← irem (idx + k) (len colors);
      c ← index colors i;
      shiftSum_loop colors rest' k (idx + 1) (wrap_int (sum + ColorDiff c color))
  end.

Definition shiftSum (colors : list Color) (k : Z) : result Z :=
  shiftSum_loop colors colors k 0 0.

(** The loop [for k := 1; k < n; k++], with [steps = n - k] rounds left. *)
Fixpoint jpg_loop (steps : nat) (colors : list Color) (k minsum minidx : Z)
  : result Z :=
  match steps with
  | O => Ok minidx
  | S steps' =>
      sum ← shiftSum colors k;
      if k =? 1 then jpg_loop steps' colors (k + 1) sum minidx
      else if sum <? minsum then jpg_loop steps' colors (k + 1) sum k
      else jpg_loop steps' colors (k + 1) minsum minidx
  end.

Definition ArrayPeriodicityJPGPlus (colors : list Color) : result Z :=
  let n := len colors in
  jpg_loop (Z.to_nat (n - 1)) colors 1 0 1.

(** ** The lossless detector *)

(** [for j > 0 && colors[i] != colors[j] { j = prefixArray[j - 1] }].
    Every round lowers [j], so [j] rounds are enough; the model stops
    with [OutOfFuel] if they were not. *)
Fixpoint png_fallback (fuel : nat) (colors : list Color) (prefixArray : list Z)
  (i j : Z) : result Z :=
  if 0 <? j then
    ci ← index colors i;
    cj ← index colors j;
    if Color_eqb ci cj then Ok j
    else match fuel with
         | O => OutOfFuel
         | S fuel' =>
             j' ← index prefixArray (j - 1);
             png_fallback fuel' colors prefixArray i j'
         end
  else Ok j.

(** The loop [for i := 1; i < n; i++], with [steps = n - i] rounds left. *)
Fixpoint png_loop (steps : nat) (colors : list Color) (prefixArray : list Z)
  (i j : Z) : result (list Z) :=
  match steps with
  | O => Ok prefixArray
  | S steps' =>
      j1 ← png_fallback (Z.to_nat j) colors prefixArray i j;
      ci ← index colors i;
      cj ← index colors j1;
      let j2 := if Color_eqb ci cj then j1 + 1 else j1 in
      prefixArray' ← store prefixArray i j2;
      png_loop steps' colors prefixArray' (i + 1) j2
  end.

Definition ArrayPeriodicityPNG (colors : list Color) : result Z :=
  let n := len colors in
  let prefixArray := replicate (length colors) 0 in
  prefixArray' ← png_loop (Z.to_nat (n - 1)) colors prefixArray 1 0;
  v ← index prefixArray' (n - 1);
  Ok (n - v).

(** What the lossless detector is specified to compute.  A border of a
    line is a proper prefix that is also a suffix. *)
Definition is_border (s : list Color) (k : nat) : Prop :=
  (k < length s)%nat /\ take k s = drop (length s - k) s.

Definition longest_border (s : list Color) (b : nat) : Prop :=
  is_border s b /\ forall k, is_border s k -> (k <= b)%nat.

(** [q] is a period of [s]: shifting by [q] maps the line onto itself. *)
Definition has_period (s : list Color) (q : nat) : Prop :=
  forall i, (i + q < length s)%nat -> s !! i = s !! (i + q)%nat.

(** A line made of [m] copies of [block]. *)
Definition repeat_block (m : nat) (block : list Color) : list Color :=
  mjoin (replicate m block).

(** ** float64 *)

(** [float64(z)] for an [int]. *)
Definition float64_of_int (z : Z) : float :=
  if z =? - 2 ^ 63 then (-9223372036854775808)%float
  else if z <? 0 then (- PrimFloat.of_uint63 (Uint63.of_Z (- z)))%float
  else PrimFloat.of_uint63 (Uint63.of_Z z).

(** The integer part of a float, when it has one. *)
Definition trunc_SF (f : spec_float) : option Z :=
  match f with
  | S754_zero _ => Some 0
  | S754_finite s m e =>
      let a := if 0 <=? e then Z.shiftl (Z.pos m) e
               else Z.shiftr (Z.pos m) (- e) in
      Some (if s then - a else a)
  | S754_infinity _ | S754_nan => None
  end.

(** [int(f)]: truncation toward zero.  For a value [int] cannot hold the
    language leaves the result to the implementation; amd64 gives the
    least [int]. *)
Definition float_to_int (f : float) : Z :=
  match trunc_SF (Prim2SF f) with
  | Some z => if (- 2 ^ 63 <=? z) && (z <? 2 ^ 63) then z else - 2 ^ 63
  | None => - 2 ^ 63
  end.

(** ** The frequency aggregator *)

(** [frequencyMap[num]++] *)
Definition tally_step (frequencyMap : gmap Z Z) (num : Z) : gmap Z Z :=
  <[num := wrap_int (default 0 (frequencyMap !! num) + 1)]> frequencyMap.

(** [for num := range arr { frequencyMap[num]++ }]: [arr] lists what the
    channel delivers before it is closed. *)
Definition tally (arr : list Z) : gmap Z Z := foldl tally_step ∅ arr.

(** [totalFrequency += freq], over the pairs in the order the map yields
    them. *)
Definition totalFrequency (order : list (Z * Z)) : Z :=
  foldl (fun total p => wrap_int (total + p.2)) 0 order.

(** [pairs[i][pairChoice]] *)
Definition pairChoice (preferFrequency : bool) (p : Z * Z) : Z :=
  if preferFrequency then p.2 else p.1.

(** The order [sort.Slice] establishes: no element is [less] than one
    before it. *)
Definition pair_ge (preferFrequency : bool) (a b : Z * Z) : Prop :=
  pairChoice preferFrequency b <= pairChoice preferFrequency a.

#[export] Instance pair_ge_dec pf a b : Decision (pair_ge pf a b).
Proof. unfold pair_ge. apply _. Defined.

(** The runs of [frequencyPairs].  Go iterates over a map in an
    unspecified order and [sort.Slice] is not stable, so the result is
    fixed only up to the order of pairs with equal sort keys. *)
Inductive frequencyPairs_run (arr : list Z) (preferFrequency : bool)
  : list (Z * Z) -> Z -> Prop :=
  | frequencyPairs_intro (order pairs : list (Z * Z)) :
      order ≡ₚ map_to_list (tally arr) ->
      pairs ≡ₚ order ->
      StronglySorted (pair_ge preferFrequency) pairs ->
      frequencyPairs_run arr preferFrequency pairs (totalFrequency order).

(** One run, for evaluation: the map's own order and a merge sort. *)
Definition frequencyPairs (arr : list Z) (preferFrequency : bool)
  : list (Z * Z) * Z :=
  let order := map_to_list (tally arr) in
  (merge_sort (pair_ge preferFrequency) order, totalFrequency order).

(** Number of lines whose period is [p]. *)
Definition occurrences (p : Z) (arr : list Z) : Z :=
  len (filter (fun q => q = p) arr).

(** ** The threshold selector *)

(** Lines 197-207 of [main]. *)
Definition effectiveTolerance (preferFrequency : bool) (tolerance : float)
  : float :=
  if preferFrequency then 0%float else (tolerance / 100)%float.

(** [int(float64(totalFrequency) * float64(tolerance))] *)
Definition threshold (total : Z) (tolerance : float) : Z :=
  float_to_int (float64_of_int total * tolerance).

(** [for idx < len(pairs) && pairs[idx][1] < thr { idx += 1 }], where
    [rest] is [pairs] from [idx] on. *)
Fixpoint skip_loop (rest : list (Z * Z)) (thr idx : Z) : Z :=
  match rest with
  | [] => idx
  | p :: rest' => if p.2 <? thr then skip_loop rest' thr (idx + 1) else idx
  end.

(** The selected period and the share that is printed with it. *)
Definition selectPeriod (pairs : list (Z * Z)) (total : Z) (tolerance : float)
  : result (Z * float) :=
  let idx := skip_loop pairs (threshold total tolerance) 0 in
  i ← irem idx (len pairs);
  p ← index pairs i;
  Ok (p.1, (float64_of_int p.2 / float64_of_int total * 100)%float).

(** The skipping rule as the specification words it: the pair's share of
    the lines is below the tolerance. *)
Definition share_below (count total : Z) (tolerance : float) : bool :=
  (float64_of_int count / float64_of_int total <? tolerance)%float.

(** ** Images

    Go's [image] and [image/draw] packages, as their documentation
    describes them, for what the crop extractor uses. *)

Record Point : Type := mkPoint { X : Z; Y : Z }.
Record Rectangle : Type := mkRectangle { Min : Point; Max : Point }.

(** [image.Rect]: the corners are swapped where needed so that the
    rectangle is well formed. *)
Definition Rect (x0 y0 x1 y1 : Z) : Rectangle :=
  let '(x0, x1) := if x1 <? x0 then (x1, x0) else (x0, x1) in
  let '(y0, y1) := if y1 <? y0 then (y1, y0) else (y0, y1) in
  mkRectangle (mkPoint x0 y0) (mkPoint x1 y1).

Definition ZR : Rectangle := mkRectangle (mkPoint 0 0) (mkPoint 0 0).

Definition Dx (r : Rectangle) : Z := wrap_int (X (Max r) - X (Min r)).
Definition Dy (r : Rectangle) : Z := wrap_int (Y (Max r) - Y (Min r)).

Definition Empty (r : Rectangle) : bool :=
  (X (Max r) <=? X (Min r)) || (Y (Max r) <=? Y (Min r)).

Definition Point_Sub (p q : Point) : Point :=
  mkPoint (wrap_int (X p - X q)) (wrap_int (Y p - Y q)).

Definition Rectangle_Add (r : Rectangle) (p : Point) : Rectangle :=
  mkRectangle
    (mkPoint (wrap_int (X (Min r) + X p)) (wrap_int (Y (Min r) + Y p)))
    (mkPoint (wrap_int (X (Max r) + X p)) (wrap_int (Y (Max r) + Y p))).

Definition Intersect (r s : Rectangle) : Rectangle :=
  let r' := mkRectangle
    (mkPoint (Z.max (X (Min r)) (X (Min s))) (Z.max (Y (Min r)) (Y (Min s))))
    (mkPoint (Z.min (X (Max r)) (X (Max s))) (Z.min (Y (Max r)) (Y (Max s)))) in
  if Empty r' then ZR else r'.

(** [(Point{x, y}).In(r)] *)
Definition In_Rect (x y : Z) (r : Rectangle) : bool :=
  (X (Min r) <=? x) && (x <? X (Max r)) && (Y (Min r) <=? y) && (y <? Y (Max r)).

(** What [c.RGBA()] returns: four channels of 16 bits. *)
Record RGBA64 : Type := mkRGBA64 { r16 : Z; g16 : Z; b16 : Z; a16 : Z }.

(** A pixel of an [image.RGBA] buffer: four bytes. *)
Record Pixel : Type := mkPixel { pixR : Z; pixG : Z; pixB : Z; pixA : Z }.

Definition zeroPixel : Pixel := mkPixel 0 0 0 0.

(** [color.RGBAModel.Convert] *)
Definition toPixel (c : RGBA64) : Pixel :=
  mkPixel (Z.shiftr (r16 c) 8 mod 256) (Z.shiftr (g16 c) 8 mod 256)
          (Z.shiftr (b16 c) 8 mod 256) (Z.shiftr (a16 c) 8 mod 256).

(** The decoded source, through the [image.Image] interface; [At] gives
    the color already passed through [RGBA()]. *)
Record Image : Type := mkImage { Bounds : Rectangle; At : Z -> Z -> RGBA64 }.

(** A pointer to [image.RGBA].  [Pix] holds one entry for each pixel, row after row
    (Go stores the four bytes of a pixel next to each other, which makes
    its stride four times this one). *)
Record RGBA : Type := mkRGBA { Pix : list Pixel; Stride : Z; RGBA_Rect : Rectangle }.

(** [image.NewRGBA]: a zeroed buffer; panics when the buffer length does
    not fit an [int]. *)
Definition NewRGBA (r : Rectangle) : result RGBA :=
  let w := Dx r in
  let h := Dy r in
  if (w <? 0) || (h <? 0) || (2 ^ 63 <=? 4 * w * h) then Panic
  else Ok (mkRGBA (replicate (Z.to_nat (w * h)) zeroPixel) w r).

(** The [RGBAAt] method: the zero color outside the rectangle. *)
Definition RGBAAt (p : RGBA) (x y : Z) : Pixel :=
  if In_Rect x y (RGBA_Rect p)
  then let off := (y - Y (Min (RGBA_Rect p))) * Stride p
                  + (x - X (Min (RGBA_Rect p))) in
       default zeroPixel (Pix p !! Z.to_nat off)
  else zeroPixel.

(** [draw.clip] without a mask: [r] is cut down to the part that lies in
    the destination and whose source lies in the source image, and [sp]
    moves along with the corner of [r]. *)
Definition clip (dstBounds r srcBounds : Rectangle) (sp : Point)
  : Rectangle * Point :=
  let orig := Min r in
  let r1 := Intersect r dstBounds in
  let r2 := Intersect r1 (Rectangle_Add srcBounds (Point_Sub orig sp)) in
  let dx := wrap_int (X (Min r2) - X orig) in
  let dy := wrap_int (Y (Min r2) - Y orig) in
  (r2, mkPoint (wrap_int (X sp + dx)) (wrap_int (Y sp + dy))).

(** [draw.Draw(dst, r, src, sp, draw.Src)]: every pixel of the clipped
    [r] is replaced by the source pixel aligned with it; the rest of
    [dst] is left as it was. *)
Definition Draw (dst : RGBA) (r : Rectangle) (src : Image) (sp : Point) : RGBA :=
  let '(r', sp') := clip (RGBA_Rect dst) r (Bounds src) sp in
  if Empty r' then dst
  else
    let paint (i : nat) (old : Pixel) : Pixel :=
      let x := X (Min (RGBA_Rect dst)) + Z.of_nat i mod Stride dst in
      let y := Y (Min (RGBA_Rect dst)) + Z.of_nat i / Stride dst in
      if In_Rect x y r'
      then toPixel (At src (X sp' + (x - X (Min r'))) (Y sp' + (y - Y (Min r'))))
      else old in
    mkRGBA (imap paint (Pix dst)) (Stride dst) (RGBA_Rect dst).

(** ** The crop extractor *)

(** Lines 292-299 of [main]. *)
Definition cropTile (img : Image) (rowPeriodicity colPeriodicity offsetX offsetY : Z)
  : result RGBA :=
  let tileWidth := rowPeriodicity in
  let tileHeight := colPeriodicity in
  targetImage ← NewRGBA (Rect 0 0 tileWidth tileHeight);
  let srcRect := Rect offsetX offsetY (wrap_int (offsetX + tileWidth))
                      (wrap_int (offsetY + tileHeight)) in
  let dstRect := RGBA_Rect targetImage in
  Ok (Draw targetImage dstRect img (Min srcRect)).

(** The same lines in the other version of [main], where the source
    rectangle is [image.Rect(offsetX, offsetY, tileWidth, tileHeight)]. *)
Definition cropTile_v1 (img : Image) (rowPeriodicity colPeriodicity offsetX offsetY : Z)
  : result RGBA :=
  let tileWidth := rowPeriodicity in
  let tileHeight := colPeriodicity in
  targetImage ← NewRGBA (Rect 0 0 tileWidth tileHeight);
  let srcRect := Rect offsetX offsetY tileWidth tileHeight in
  let dstRect := RGBA_Rect targetImage in
  Ok (Draw targetImage dstRect img (Min srcRect)).

(** The requested rectangle reaches outside the source image. *)
Definition exceeds_bounds (img : Image) (rowPeriod colPeriod offsetX offsetY : Z)
  : Prop :=
  ~ (X (Min (Bounds img)) <= offsetX /\ offsetX + rowPeriod <= X (Max (Bounds img))
     /\ Y (Min (Bounds img)) <= offsetY /\ offsetY + colPeriod <= Y (Max (Bounds img))).

(** ** Notions used in the proofs *)

(** Borders of the prefix of length [m], by positions: the first [k]
    colors are the last [k] colors of the prefix. *)
Definition prefix_border (s : list Color) (m k : nat) : Prop :=
  (k < m)%nat /\ forall t, (t < k)%nat -> s !! t = s !! (m - k + t)%nat.

Definition prefix_pi (s : list Color) (m b : nat) : Prop :=
  prefix_border s m b /\ forall k, prefix_border s m k -> (k <= b)%nat.

(** [prefixArray] holds the prefix function up to position [i - 1]. *)
Definition prefixArray_ok (s : list Color) (prefixArray : list Z) (i : nat) : Prop :=
  forall t, (1 <= t <= i)%nat ->
    exists b, prefixArray !! (t - 1)%nat = Some (Z.of_nat b) /\ prefix_pi s t b.

(** A block that is not itself made of copies of a shorter block: no
    period of it divides its length.  A block with no period below its
    length at all is of this kind. *)
Definition primitive_block (block : list Color) : Prop :=
  forall q, (0 < q < length block)%nat -> (length block mod q = 0)%nat ->
    ~ has_period block q.

(** [idx] is the least shift below [hi] whose sum is the least, and
    [sum] is that sum. *)
Definition least_argmin (colors : list Color) (hi idx sum : Z) : Prop :=
  1 <= idx < hi
  /\ shiftSum colors idx = Ok sum
  /\ forall k, 1 <= k < hi ->
       exists sum', shiftSum colors k = Ok sum'
                    /\ sum <= sum' /\ (sum' = sum -> idx <= k).

(** One channel's share of [ColorDiff] on 16-bit channels: the square of
    the difference, which the unsigned subtraction spoils when the
    difference is negative. *)
Definition channelDiff (d : Z) : Z :=
  if d <? 0 then d ^ 2 + 2 ^ 33 * d else d ^ 2.

Definition Zsum (l : list Z) : Z := foldr Z.add 0 l.

(** The term position [i] adds to the sum of shift [k]. *)
Definition shiftTerm (colors : list Color) (k : Z) (i : nat) : Z :=
  match colors !! Z.to_nat (Z.rem (Z.of_nat i + k) (len colors)), colors !! i with
  | Some c, Some color => ColorDiff c color
  | _, _ => 0
  end.

(** The sum of shift [k] over the integers, without wrap-around. *)
Definition exactShiftSum (colors : list Color) (k : Z) : Z :=
  Zsum (map (shiftTerm colors k) (seq 0 (length colors))).

(** Coordinates far enough from the ends of [int] for the arithmetic of
    the crop not to wrap. *)
Definition small (z : Z) : Prop := - 2 ^ 61 <= z <= 2 ^ 61.

Definition small_Rectangle (r : Rectangle) : Prop :=
  small (X (Min r)) /\ small (Y (Min r)) /\ small (X (Max r)) /\ small (Y (Max r)).

(** A 4 x 2 image with a different red value at every position, for
    evaluation. *)
Definition sample_image : Image :=
  mkImage (Rect 0 0 4 2)
    (fun x y => mkRGBA64 (256 * (10 * y + x + 1)) 0 0 65535).

(** ** The luma detector *)

(** [float64(c)] for a [uint32] channel. *)
Definition float64_of_uint32 (z : Z) : float :=
  PrimFloat.of_uint63 (Uint63.of_Z (wrap_uint32 z)).

(** [Gray]: the products and sums are rounded one by one, as on amd64
    at its default level (the language lets other targets fuse them).
    The constants are the doubles next to 0.299, 0.587 and 0.114. *)
Definition Gray (color : Color) : float :=
  let r := float64_of_uint32 (R color) in
  let g := float64_of_uint32 (G color) in
  let b := float64_of_uint32 (B color) in
  (0x1.322d0e5604189p-2 * r + 0x1.2c8b439581062p-1 * g
   + 0x1.d2f1a9fbe76c9p-4 * b)%float.

(** The inner [range] loop of [ArrayPeriodicityJPG]. *)
Fixpoint graySum_loop (grayscale rest : list float) (k idx : Z) (sum : float)
  : result float :=
  match rest with
  | [] => Ok sum
  | gray :: rest' =>
      i ← irem (idx + k) (len grayscale);
      g ← index grayscale i;
      graySum_loop grayscale rest' k (idx + 1) (sum + abs (g - gray))%float
  end.

Definition graySum (grayscale : list float) (k : Z) : result float :=
  graySum_loop grayscale grayscale k 0 0%float.

Fixpoint gray_loop (steps : nat) (grayscale : list float) (k : Z)
  (minsum : float) (minidx : Z) : result Z :=
  match steps with
  | O => Ok minidx
  | S steps' =>
      sum ← graySum grayscale k;
      if k =? 1 then gray_loop steps' grayscale (k + 1) sum minidx
      else if (sum <? minsum)%float then gray_loop steps' grayscale (k + 1) sum k
      else gray_loop steps' grayscale (k + 1) minsum minidx
  end.

Definition ArrayPeriodicityJPG (colors : list Color) : result Z :=
  let n := len colors in
  let grayscale := Gray <$> colors in
  gray_loop (Z.to_nat (n - 1)) grayscale 1 0%float 1.

(** ** The line scans *)

Definition LOSSLESS : Z := 0.
Definition LOSSY : Z := 1.

(** [r, g, b, _ := img.At(x, y).RGBA()] into a [Color]. *)
Definition colorAt (img : Image) (x y : Z) : Color :=
  let c := At img x y in mkColor (r16 c) (g16 c) (b16 c).

(** [processRow]: the row is read from [x = 0] up to [bounds.Max.X];
    [make] panics on a negative length.  The value is what the goroutine
    sends on the channel. *)
Definition processRow (img : Image) (imageFormat rowIdx : Z) : result Z :=
  let bounds := Bounds img in
  if X (Max bounds) <? 0 then Panic
  else
    let rowColors := (fun x => colorAt img x rowIdx) <$> seqZ 0 (X (Max bounds)) in
    if imageFormat =? LOSSY then ArrayPeriodicityJPGPlus rowColors
    else ArrayPeriodicityPNG rowColors.

(** [processCol] *)
Definition processCol (img : Image) (imageFormat colIdx : Z) : result Z :=
  let bounds := Bounds img in
  if Y (Max bounds) <? 0 then Panic
  else
    let colColors := (fun y => colorAt img colIdx y) <$> seqZ 0 (Y (Max bounds)) in
    if imageFormat =? LOSSY then ArrayPeriodicityJPGPlus colColors
    else ArrayPeriodicityPNG colColors.

(** All lines of one axis: a panic in one goroutine ends the program. *)
Fixpoint collect (rs : list (result Z)) : result (list Z) :=
  match rs with
  | [] => Ok []
  | r :: rs' => v ← r; vs ← collect rs'; Ok (v :: vs)
  end.

(** The row scan of [main] (lines 243-256): one goroutine for each row
    [0 .. numRows - 1]; [make(chan int, numRows)] panics on a negative
    size.  The periods are listed by row; the channel delivers them in
    any order. *)
Definition scanRows (img : Image) (imageFormat : Z) : result (list Z) :=
  let numRows := Y (Max (Bounds img)) in
  if numRows <? 0 then Panic
  else collect (processRow img imageFormat <$> seqZ 0 numRows).

(** The column scan (lines 268-280). *)
Definition scanCols (img : Image) (imageFormat : Z) : result (list Z) :=
  let numCols := X (Max (Bounds img)) in
  if numCols <? 0 then Panic
  else collect (processCol img imageFormat <$> seqZ 0 numCols).

(** Aggregation and selection for one axis (lines 258-266): the channel
    delivers the periods in some order [arr]. *)
Inductive axis_run (periods : list Z) (preferFrequency : bool) (tolerance : float)
  : Z -> float -> Prop :=
  | axis_run_intro (arr : list Z) (pairs : list (Z * Z)) (total p : Z)
      (share : float) :
      arr ≡ₚ periods ->
      frequencyPairs_run arr preferFrequency pairs total ->
      selectPeriod pairs total (effectiveTolerance preferFrequency tolerance)
      = Ok (p, share) ->
      axis_run periods preferFrequency tolerance p share.

(** A run of [main] from the decoded image to the tile. *)
Definition tile_run (img : Image) (imageFormat : Z)
  (rowPreferFrequency colPreferFrequency : bool) (rowTolerance colTolerance : float)
  (offsetX offsetY : Z) (rowPeriodicity colPeriodicity : Z) (tile : RGBA) : Prop :=
  exists rows cols rowShare colShare,
    scanRows img imageFormat = Ok rows
    /\ axis_run rows rowPreferFrequency rowTolerance rowPeriodicity rowShare
    /\ scanCols img imageFormat = Ok cols
    /\ axis_run cols colPreferFrequency colTolerance colPeriodicity colShare
    /\ cropTile img rowPeriodicity colPeriodicity offsetX offsetY = Ok tile.

(** The default of [-row-tolerance] and [-col-tolerance]: the double
    next to 0.1 (a percentage). *)
Definition defaultTolerance : float := 0x1.999999999999ap-4%float.

(** ** The image format *)

(** [path.Ext] of the Go library: the path is read from its end up to
    the last slash, and the suffix that starts at the first dot met is
    returned; there is no extension without a dot. *)
Fixpoint Ext_loop (rev_path suffix : list ascii) : list ascii :=
  match rev_path with
  | [] => []
  | c :: rest =>
      if (c =? "/")%char then []
      else if (c =? ".")%char then c :: suffix
      else Ext_loop rest (c :: suffix)
  end.

Definition Ext (path : list ascii) : list ascii := Ext_loop (reverse path) [].

(** The string [".png"]. *)
Definition dot_png : list ascii := ["."; "p"; "n"; "g"]%char.

(** The choice of [imageFormat] in [main] (lines 222-241); [None] is the
    early [return] after the message that only one of the two flags may
    be given. *)
Definition selectFormat (setLossy setLossless : bool) (input : list ascii)
  : option Z :=
  if setLossy || setLossless then
    if setLossy && setLossless then None
    else if setLossless then Some LOSSLESS
    else Some LOSSY
  else if bool_decide (Ext input = dot_png) then Some LOSSLESS
  else Some LOSSY.


(** * Proofs *)

(** ** Running Go code *)

Lemma index_lookup {A} (l : list A) (i : nat) (a : A) :
  l !! i = Some a -> index l (Z.of_nat i) = Ok a.
Proof.
  intros H. unfold index.
  destruct (Z.ltb_spec (Z.of_nat i) 0) as [?|_]; [lia|].
  by rewrite Nat2Z.id, H.
Qed.

Lemma index_lookup_Z {A} (l : list A) (i : Z) (a : A) :
  0 <= i -> l !! Z.to_nat i = Some a -> index l i = Ok a.
Proof.
  intros Hi H. rewrite <- (Z2Nat.id i Hi). by apply index_lookup.
Qed.

Lemma store_insert {A} (l : list A) (i : nat) (a : A) :
  (i < length l)%nat -> store l (Z.of_nat i) a = Ok (<[i := a]> l).
Proof.
  intros H. unfold store.
  destruct (Z.leb_spec 0 (Z.of_nat i)); [|lia].
  destruct (Z.ltb_spec (Z.of_nat i) (Z.of_nat (length l))); [|lia].
  simpl. by rewrite Nat2Z.id.
Qed.

Lemma Color_eqb_eq (x y : Color) : Color_eqb x y = true <-> x = y.
Proof.
  unfold Color_eqb. destruct x as [a b c], y as [a' b' c']; simpl.
  rewrite !andb_true_iff, !Z.eqb_eq. split.
  - intros [[-> ->] ->]. reflexivity.
  - intros [= -> -> ->]. auto.
Qed.

Lemma Color_eqb_neq (x y : Color) : Color_eqb x y = false <-> x <> y.
Proof.
  rewrite <- Color_eqb_eq. destruct (Color_eqb x y); split; congruence.
Qed.

(** ** Borders and the prefix function *)

Section prefix_function.
Context (s : list Color).
Local Open Scope nat_scope.

Lemma prefix_border_shorter (m j k : nat) :
  prefix_border s m j -> k < j ->
  prefix_border s m k <-> prefix_border s j k.
Proof.
  intros [Hjm Hj] Hk. split; intros [_ Hb]; (split; [lia|]); intros t Ht.
  - rewrite (Hb t Ht), (Hj (j - k + t)) by lia; f_equal; lia.
  - rewrite (Hb t Ht), (Hj (j - k + t)) by lia; f_equal; lia.
Qed.

Lemma prefix_border_S (m k : nat) :
  prefix_border s (S m) (S k) <-> prefix_border s m k /\ s !! k = s !! m.
Proof.
  split.
  - intros [Hk Hb]. split.
    + split; [lia|]. intros t Ht. rewrite (Hb t) by lia; f_equal; lia.
    + rewrite (Hb k) by lia; f_equal; lia.
  - intros [[Hk Hb] Hlast]. split; [lia|]. intros t Ht.
    destruct (decide (t = k)) as [->|Hne].
    + rewrite Hlast; f_equal; lia.
    + rewrite (Hb t) by lia; f_equal; lia.
Qed.

Lemma prefix_border_0 (m : nat) : 0 < m -> prefix_border s m 0.
Proof. intros H. split; [done|]. intros t Ht. lia. Qed.

(** The borders of the prefix of length [S m] come from those of the
    prefix of length [m] that the next color extends. *)
Lemma prefix_pi_extend (m j : nat) :
  0 < m ->
  prefix_border s m j ->
  (forall k, prefix_border s m k -> j < k -> s !! k <> s !! m) ->
  j = 0 \/ s !! j = s !! m ->
  prefix_pi s (S m) (if decide (s !! j = s !! m) then S j else j).
Proof.
  intros Hm Hj Hbig Hexit. destruct (decide (s !! j = s !! m)) as [Heq|Hne].
  - split; [by apply prefix_border_S|].
    intros [|k] Hk; [lia|]. apply prefix_border_S in Hk as [Hk Hkm].
    destruct (decide (j < k)) as [Hlt|]; [|lia].
    by destruct (Hbig k Hk Hlt).
  - destruct Hexit as [->|]; [|done]. split.
    + apply prefix_border_0. lia.
    + intros [|k] Hk; [lia|]. apply prefix_border_S in Hk as [Hk Hkm].
      destruct k as [|k]; [done|]. destruct (Hbig (S k) Hk); [lia|done].
Qed.

(** Falling back from a border [j] to the longest border of the prefix
    of length [j] passes over no border of the prefix of length [m]. *)
Lemma prefix_border_fallback (m j b : nat) :
  prefix_border s m j -> prefix_pi s j b ->
  prefix_border s m b /\
  forall k, prefix_border s m k -> b < k -> k < j -> False.
Proof.
  intros Hj [Hb Hmax]. assert (b < j) by (destruct Hb; lia). split.
  - by apply (prefix_border_shorter m j b).
  - intros k Hk Hbk Hkj. apply (prefix_border_shorter m j k) in Hk; [|done..].
    specialize (Hmax k Hk). lia.
Qed.
End prefix_function.

(** ** The lossless detector computes the prefix function *)

Section ArrayPeriodicityPNG_correct.
Context (s : list Color).

Lemma png_fallback_spec (prefixArray : list Z) (i : nat) :
  (0 < i < length s)%nat ->
  prefixArray_ok s prefixArray i ->
  forall (fuel j : nat),
    (j <= fuel)%nat ->
    prefix_border s i j ->
    (forall k, prefix_border s i k -> (j < k)%nat -> s !! k <> s !! i) ->
    exists j' : nat,
      png_fallback fuel s prefixArray (Z.of_nat i) (Z.of_nat j) = Ok (Z.of_nat j')
      /\ prefix_border s i j'
      /\ (forall k, prefix_border s i k -> (j' < k)%nat -> s !! k <> s !! i)
      /\ (j' = 0%nat \/ s !! j' = s !! i).
Proof.
  intros Hi Hpa. induction fuel as [|fuel IH]; intros j Hfuel Hj Hbig.
  - assert (j = 0%nat) as -> by lia. exists 0%nat. simpl. auto.
  - destruct j as [|j0]; [exists 0%nat; simpl; auto|].
    set (j := S j0) in *. assert (j < i)%nat as Hji by apply Hj.
    destruct (lookup_lt_is_Some_2 s i) as [ci Hci]; [lia|].
    destruct (lookup_lt_is_Some_2 s j) as [cj Hcj]; [lia|].
    cbn [png_fallback].
    destruct (Z.ltb_spec 0 (Z.of_nat j)) as [_|?]; [|lia].
    rewrite (index_lookup _ _ _ Hci), (index_lookup _ _ _ Hcj). cbn.
    destruct (Color_eqb ci cj) eqn:Heq.
    + apply Color_eqb_eq in Heq as ->. exists j.
      split; [done|]. split; [done|]. split; [done|]. right. congruence.
    + apply Color_eqb_neq in Heq.
      destruct (Hpa j) as (b & Hb & Hpi); [lia|].
      replace (Z.of_nat j - 1) with (Z.of_nat (j - 1)) by lia.
      rewrite (index_lookup _ _ _ Hb). cbn.
      destruct (prefix_border_fallback s i j b Hj Hpi) as [Hbi Hgap].
      assert (b < j)%nat by (destruct Hpi as [[? _] _]; lia).
      apply IH; [lia|done|].
      intros k Hk Hbk. destruct (decide (j < k)%nat) as [Hlt|Hge].
      * by apply Hbig.
      * destruct (decide (k = j)) as [->|Hne].
        -- rewrite Hci, Hcj. congruence.
        -- destruct (Hgap k Hk); lia.
Qed.

Lemma png_loop_spec (steps : nat) :
  forall (prefixArray : list Z) (i j : nat),
    (0 < i)%nat -> (i + steps = length s)%nat ->
    length prefixArray = length s ->
    prefixArray_ok s prefixArray i ->
    prefix_pi s i j ->
    exists prefixArray',
      png_loop steps s prefixArray (Z.of_nat i) (Z.of_nat j) = Ok prefixArray'
      /\ length prefixArray' = length s
      /\ prefixArray_ok s prefixArray' (length s).
Proof.
  induction steps as [|steps IH]; intros pa i j Hi Hsteps Hlen Hpa Hpi.
  - exists pa. split; [done|]. split; [done|].
    by replace (length s) with i by lia.
  - cbn [png_loop]. rewrite Nat2Z.id.
    destruct Hpi as [Hj Hmax].
    destruct (png_fallback_spec pa i ltac:(lia) Hpa j j ltac:(lia) Hj)
      as (j1 & -> & Hj1 & Hbig & Hexit).
    { intros k Hk Hlt. specialize (Hmax k Hk). lia. }
    cbn. assert (j1 < i)%nat as Hj1i by apply Hj1.
    destruct (lookup_lt_is_Some_2 s i) as [ci Hci]; [lia|].
    destruct (lookup_lt_is_Some_2 s j1) as [cj Hcj]; [lia|].
    rewrite (index_lookup _ _ _ Hci), (index_lookup _ _ _ Hcj). cbn.
    pose proof (prefix_pi_extend s i j1 Hi Hj1 Hbig Hexit) as Hnext.
    set (j2 := if decide (s !! j1 = s !! i) then S j1 else j1) in *.
    assert ((if Color_eqb ci cj then Z.of_nat j1 + 1 else Z.of_nat j1)
            = Z.of_nat j2) as ->.
    { subst j2. rewrite Hci, Hcj. destruct (Color_eqb ci cj) eqn:Heq.
      - apply Color_eqb_eq in Heq as ->. rewrite decide_True by done. lia.
      - apply Color_eqb_neq in Heq. rewrite decide_False by congruence. done. }
    rewrite store_insert by lia. cbn.
    replace (Z.of_nat i + 1) with (Z.of_nat (S i)) by lia.
    apply IH; [lia|lia|by rewrite length_insert| |done].
    intros t Ht. destruct (decide (t = S i)) as [->|Hne].
    + exists j2. split; [|done].
      replace (S i - 1)%nat with i by lia.
      apply list_lookup_insert_eq. lia.
    + destruct (Hpa t) as (b & Hb & Hpib); [lia|]. exists b. split; [|done].
      rewrite list_lookup_insert_ne by lia. done.
Qed.
End ArrayPeriodicityPNG_correct.

Lemma is_border_prefix_border (s : list Color) (k : nat) :
  is_border s k <-> prefix_border s (length s) k.
Proof.
  unfold is_border, prefix_border. split; intros [Hk H]; (split; [done|]).
  - intros t Ht.
    rewrite <- (lookup_take_lt s k t Ht), H, lookup_drop. done.
  - apply list_eq. intros t. rewrite lookup_drop.
    destruct (decide (t < k)%nat) as [Ht|Ht].
    + rewrite lookup_take_lt by done. by apply H.
    + rewrite lookup_take_ge by lia. symmetry. apply lookup_ge_None_2. lia.
Qed.

Lemma longest_border_prefix_pi (s : list Color) (b : nat) :
  longest_border s b <-> prefix_pi s (length s) b.
Proof.
  unfold longest_border, prefix_pi. rewrite is_border_prefix_border.
  split; intros [Hb Hmax]; (split; [done|]); intros k Hk; apply Hmax;
    by apply is_border_prefix_border.
Qed.

Lemma longest_border_unique (s : list Color) (b b' : nat) :
  longest_border s b -> longest_border s b' -> b = b'.
Proof.
  intros [Hb Hmax] [Hb' Hmax']. specialize (Hmax b' Hb').
  specialize (Hmax' b Hb). lia.
Qed.

(** The detector returns the length of the line less its longest border. *)
Lemma ArrayPeriodicityPNG_longest_border (colors : list Color) :
  colors <> [] ->
  exists b : nat,
    longest_border colors b
    /\ ArrayPeriodicityPNG colors = Ok (len colors - Z.of_nat b).
Proof.
  intros Hne. assert (0 < length colors)%nat as Hlen.
  { destruct colors; [done|simpl; lia]. }
  destruct (png_loop_spec colors (length colors - 1)
              (replicate (length colors) 0) 1 0)
    as (pa & Hrun & Hpalen & Hpa); [lia|lia|apply length_replicate| | |].
  - intros t Ht. assert (t = 1%nat) as -> by lia. exists 0%nat. split.
    + apply lookup_replicate_2. lia.
    + split; [apply prefix_border_0; lia|]. intros k [Hk _]. lia.
  - split; [apply prefix_border_0; lia|]. intros k [Hk _]. lia.
  - destruct (Hpa (length colors)) as (b & Hb & Hpi); [lia|].
    exists b. split; [by apply longest_border_prefix_pi|].
    unfold ArrayPeriodicityPNG, len.
    replace (Z.to_nat (Z.of_nat (length colors) - 1))
      with (length colors - 1)%nat by lia.
    change (png_loop (length colors - 1) colors
              (replicate (length colors) 0) 1 0 = Ok pa) in Hrun.
    rewrite Hrun. cbn.
    replace (Z.of_nat (length colors) - 1)
      with (Z.of_nat (length colors - 1)) by lia.
    rewrite (index_lookup _ _ _ Hb). done.
Qed.

(** ** Periods *)

Section periods.
Context (s : list Color).
Local Open Scope nat_scope.

Lemma prefix_border_has_period (q : nat) :
  0 < q <= length s ->
  prefix_border s (length s) (length s - q) <-> has_period s q.
Proof.
  intros Hq. unfold prefix_border, has_period. split.
  - intros [_ H] i Hi. rewrite (H i) by lia. f_equal. lia.
  - intros H. split; [lia|]. intros t Ht. rewrite (H t) by lia. f_equal. lia.
Qed.

Lemma has_period_sub (p q : nat) :
  has_period s p -> has_period s q -> q <= p -> p + q <= length s ->
  has_period s (p - q).
Proof.
  intros Hp Hq Hle Hlen i Hi.
  destruct (decide (i + p < length s)) as [Hlt|Hge].
  - rewrite (Hp i Hlt), (Hq (i + (p - q))) by lia. f_equal. lia.
  - trans (s !! (i - q)).
    + rewrite (Hq (i - q)) by lia. f_equal; lia.
    + rewrite (Hp (i - q)) by lia. f_equal; lia.
Qed.

Lemma has_period_mod (q : nat) :
  0 < q -> has_period s q ->
  forall p, has_period s p -> p + q <= length s -> has_period s (p mod q).
Proof.
  intros Hq0 Hq p. induction (lt_wf p) as [p _ IH]. intros Hp Hlen.
  destruct (decide (p < q)) as [Hlt|Hge].
  - by rewrite Nat.mod_small.
  - replace (p mod q) with ((p - q) mod q).
    + apply IH; [lia| |lia]. apply has_period_sub; [done|done|lia|lia].
    + replace p with ((p - q) + 1 * q) at 2 by lia.
      by rewrite Nat.Div0.mod_add.
Qed.

(** The least period divides every period [p] with [p + q <= n]. *)
Lemma least_period_divides (b p : nat) :
  prefix_pi s (length s) b ->
  0 < p -> has_period s p -> p + (length s - b) <= length s ->
  p mod (length s - b) = 0.
Proof.
  intros [Hb Hmax] Hp0 Hp Hlen.
  assert (b < length s) as Hbn by apply Hb.
  set (q := length s - b) in *.
  assert (has_period s q) as Hq.
  { apply prefix_border_has_period; [lia|].
    by replace (length s - q) with b by lia. }
  pose proof (has_period_mod q ltac:(lia) Hq p Hp Hlen) as Hr.
  pose proof (Nat.mod_upper_bound p q ltac:(lia)) as Hrq.
  destruct (decide (p mod q = 0)) as [|Hr0]; [done|]. exfalso.
  apply prefix_border_has_period in Hr; [|lia].
  specialize (Hmax _ Hr). lia.
Qed.
End periods.

Section repeated_block.
Context (block : list Color).
Local Open Scope nat_scope.

Lemma length_repeat_block (m : nat) :
  length (repeat_block m block) = m * length block.
Proof.
  unfold repeat_block. induction m as [|m IH]; [done|].
  simpl. rewrite length_app, IH. lia.
Qed.

Lemma lookup_repeat_block (m i : nat) :
  i < m * length block ->
  repeat_block m block !! i = block !! (i mod length block).
Proof.
  unfold repeat_block. revert i. induction m as [|m IH]; intros i Hi; [lia|].
  simpl. destruct (decide (i < length block)) as [Hlt|Hge].
  - rewrite lookup_app_l by done. by rewrite Nat.mod_small.
  - rewrite lookup_app_r by lia. rewrite IH by lia.
    replace i with ((i - length block) + 1 * length block) at 2 by lia.
    by rewrite Nat.Div0.mod_add.
Qed.

Lemma repeat_block_has_period (m : nat) :
  has_period (repeat_block m block) (length block).
Proof.
  intros i Hi. rewrite length_repeat_block in Hi.
  rewrite !lookup_repeat_block by lia.
  replace (i + length block) with (i + 1 * length block) by lia.
  by rewrite Nat.Div0.mod_add.
Qed.

Lemma repeat_block_period_block (m q : nat) :
  0 < m -> has_period (repeat_block m block) q -> has_period block q.
Proof.
  intros Hm H i Hi.
  assert (forall t, t < length block ->
            block !! t = repeat_block m block !! t) as Hpre.
  { intros t Ht. rewrite lookup_repeat_block by nia.
    by rewrite Nat.mod_small. }
  rewrite !Hpre by lia. apply H. rewrite length_repeat_block. nia.
Qed.

(** A line of [m >= 2] copies of a primitive block has the length of
    the block as its least period. *)
Lemma repeat_block_longest_border (m b : nat) :
  block <> [] -> 2 <= m -> primitive_block block ->
  longest_border (repeat_block m block) b ->
  length (repeat_block m block) - b = length block.
Proof.
  intros Hne Hm Hprim Hb. apply longest_border_prefix_pi in Hb.
  set (w := repeat_block m block) in *.
  assert (0 < length block) as Hp0 by (destruct block; [done|simpl; lia]).
  assert (length w = m * length block) as Hw by apply length_repeat_block.
  assert (b < length w) as Hbw by apply Hb.
  assert (has_period w (length block)) as Hp by apply repeat_block_has_period.
  unfold primitive_block in Hprim.
  remember (length block) as p eqn:Hpdef.
  assert (2 * p <= length w) as Htwice by (rewrite Hw; nia).
  assert (length w - b <= p) as Hqp.
  { destruct Hb as [_ Hmax].
    assert (prefix_border w (length w) (length w - p)) as Hbp.
    { apply prefix_border_has_period; [lia|done]. }
    specialize (Hmax _ Hbp). lia. }
  assert (p + (length w - b) <= length w) as Hfit by lia.
  pose proof (least_period_divides w b p Hb Hp0 Hp Hfit) as Hdiv.
  remember (length w - b) as q eqn:Hqdef.
  destruct (decide (q = p)) as [|Hqne]; [done|]. exfalso.
  apply (Hprim q); [lia|done|].
  apply (repeat_block_period_block m); [lia|]. change (has_period w q).
  apply prefix_border_has_period; [lia|].
  replace (length w - q) with b by lia. apply Hb.
Qed.
End repeated_block.

(** A block with no period below its length is primitive. *)
Lemma no_shorter_period_primitive (block : list Color) :
  (forall q, (0 < q < length block)%nat -> ~ has_period block q) ->
  primitive_block block.
Proof. intros H q Hq _. by apply H. Qed.

(** C1.  For every non-empty line the lossless detector returns the
    length of the line less the length of its longest proper prefix that
    is also a suffix; for a line made of [m >= 2] copies of a block that
    is not itself a repetition of a shorter block it returns the length
    of the block. *)
Theorem ArrayPeriodicityPNG_period (colors block : list Color) (m : nat) :
  (colors <> [] ->
   exists b : nat,
     longest_border colors b
     /\ ArrayPeriodicityPNG colors = Ok (len colors - Z.of_nat b))
  /\ (block <> [] -> (2 <= m)%nat -> primitive_block block ->
      ArrayPeriodicityPNG (repeat_block m block) = Ok (len block)).
Proof.
  split; [apply ArrayPeriodicityPNG_longest_border|].
  intros Hne Hm Hprim.
  assert (repeat_block m block <> []) as Hw.
  { intros Hnil. apply (f_equal length) in Hnil.
    rewrite length_repeat_block in Hnil. destruct block; [done|].
    simpl in Hnil. nia. }
  destruct (ArrayPeriodicityPNG_longest_border _ Hw) as (b & Hb & ->).
  pose proof (repeat_block_longest_border block m b Hne Hm Hprim Hb) as Hq.
  assert (b < length (repeat_block m block))%nat by apply Hb.
  unfold len. f_equal. lia.
Qed.

Lemma ArrayPeriodicityPNG_period_witness :
  let a := mkColor 1 2 3 in
  let b := mkColor 4 5 6 in
  (exists k : nat,
     longest_border [a; b; a] k
     /\ ArrayPeriodicityPNG [a; b; a] = Ok (len [a; b; a] - Z.of_nat k))
  /\ ArrayPeriodicityPNG (repeat_block 3 [a; b]) = Ok 2.
Proof.
  intros a b.
  destruct (ArrayPeriodicityPNG_period [a; b; a] [a; b] 3) as [H1 H2].
  split; [apply H1; discriminate|].
  apply H2; [discriminate|lia|].
  intros q Hq _ Hper. simpl in Hq. assert (q = 1%nat) as -> by lia.
  specialize (Hper 0%nat ltac:(simpl; lia)). discriminate.
Defined.


(** ** The lossy detector *)

Lemma shiftSum_loop_ok (colors rest : list Color) (k : Z) :
  colors <> [] -> 0 <= k ->
  forall idx sum, 0 <= idx ->
    exists v, shiftSum_loop colors rest k idx sum = Ok v.
Proof.
  intros Hne Hk. assert (0 < len colors) as Hn.
  { unfold len. destruct colors; [done|simpl; lia]. }
  induction rest as [|color rest IH]; intros idx sum Hidx; [by eexists|].
  cbn [shiftSum_loop]. unfold irem.
  destruct (Z.eqb_spec (len colors) 0) as [?|_]; [lia|]. cbn.
  pose proof (Z.rem_bound_pos (idx + k) (len colors) ltac:(lia) Hn) as Hrem.
  destruct (lookup_lt_is_Some_2 colors (Z.to_nat (Z.rem (idx + k) (len colors))))
    as [c Hc]; [unfold len in *; lia|].
  assert (index colors (Z.rem (idx + k) (len colors)) = Ok c) as ->
    by (apply index_lookup_Z; [lia|done]).
  cbn. apply IH. lia.
Qed.

Lemma shiftSum_ok (colors : list Color) (k : Z) :
  colors <> [] -> 0 <= k -> exists v, shiftSum colors k = Ok v.
Proof. intros Hne Hk. by apply shiftSum_loop_ok. Qed.

Lemma least_argmin_first (colors : list Color) (sum : Z) :
  shiftSum colors 1 = Ok sum -> least_argmin colors 2 1 sum.
Proof.
  intros H. split; [lia|]. split; [done|]. intros k Hk.
  assert (k = 1) as -> by lia. exists sum. split; [done|]. lia.
Qed.

Lemma least_argmin_next (colors : list Color) (k minidx minsum sum : Z) :
  least_argmin colors k minidx minsum ->
  shiftSum colors k = Ok sum ->
  least_argmin colors (k + 1)
    (if sum <? minsum then k else minidx) (if sum <? minsum then sum else minsum).
Proof.
  intros (Hidx & Hmin & Hall) Hsum.
  destruct (Z.ltb_spec sum minsum) as [Hlt|Hge].
  - split; [lia|]. split; [done|]. intros k' Hk'.
    destruct (decide (k' = k)) as [->|Hne].
    + exists sum. split; [done|]. lia.
    + destruct (Hall k') as (s' & Hs' & Hle & _); [lia|].
      exists s'. split; [done|]. lia.
  - split; [lia|]. split; [done|]. intros k' Hk'.
    destruct (decide (k' = k)) as [->|Hne].
    + exists sum. split; [done|]. lia.
    + destruct (Hall k') as (s' & Hs' & Hle & Htie); [lia|].
      exists s'. split; [done|]. lia.
Qed.

Lemma jpg_loop_spec (colors : list Color) (steps : nat) :
  colors <> [] ->
  forall k minsum minidx,
    2 <= k -> least_argmin colors k minidx minsum ->
    exists r sum,
      jpg_loop steps colors k minsum minidx = Ok r
      /\ least_argmin colors (k + Z.of_nat steps) r sum.
Proof.
  intros Hne. induction steps as [|steps IH]; intros k minsum minidx Hk Hbest.
  - exists minidx, minsum. split; [done|]. by rewrite Z.add_0_r.
  - cbn [jpg_loop]. destruct (shiftSum_ok colors k Hne ltac:(lia)) as [sum Hsum].
    rewrite Hsum. cbn. destruct (Z.eqb_spec k 1) as [?|_]; [lia|].
    pose proof (least_argmin_next colors k minidx minsum sum Hbest Hsum) as Hnext.
    replace (k + Z.of_nat (S steps)) with (k + 1 + Z.of_nat steps) by lia.
    destruct (sum <? minsum); apply IH; (lia || done).
Qed.

(** The detector returns the least shift among those whose held sum is
    the least. *)
Lemma ArrayPeriodicityJPGPlus_least_argmin (colors : list Color) :
  2 <= len colors ->
  exists k sum,
    ArrayPeriodicityJPGPlus colors = Ok k
    /\ least_argmin colors (len colors) k sum.
Proof.
  intros Hn. assert (colors <> []) as Hne.
  { intros ->. unfold len in Hn. simpl in Hn. lia. }
  unfold ArrayPeriodicityJPGPlus.
  destruct (Z.to_nat (len colors - 1)) as [|steps] eqn:Hsteps; [lia|].
  cbn [jpg_loop]. destruct (shiftSum_ok colors 1 Hne ltac:(lia)) as [sum1 Hsum1].
  rewrite Hsum1. cbn.
  destruct (jpg_loop_spec colors steps Hne 2 sum1 1 ltac:(lia)
              (least_argmin_first colors sum1 Hsum1)) as (r & sum & Hrun & Hbest).
  change (1 + 1) with 2. exists r, sum. split; [done|].
  by replace (2 + Z.of_nat steps) with (len colors) in Hbest by lia.
Qed.


(** ** Machine arithmetic *)

Lemma wrap_int_small (z : Z) : int_range z -> wrap_int z = z.
Proof.
  unfold int_range, wrap_signed. intros H.
  change (2 ^ (64 - 1)) with (2 ^ 63). rewrite Z.mod_small; lia.
Qed.

Lemma wrap_int_range (z : Z) : int_range (wrap_int z).
Proof.
  unfold int_range, wrap_signed. change (2 ^ (64 - 1)) with (2 ^ 63).
  pose proof (Z.mod_pos_bound (z + 2 ^ 63) (2 ^ 64) ltac:(lia)). lia.
Qed.

Lemma wrap_int_add_l (a b : Z) : wrap_int (wrap_int a + b) = wrap_int (a + b).
Proof.
  unfold wrap_signed. change (2 ^ (64 - 1)) with (2 ^ 63). f_equal.
  replace ((a + 2 ^ 63) mod 2 ^ 64 - 2 ^ 63 + b + 2 ^ 63)
    with ((a + 2 ^ 63) mod 2 ^ 64 + b) by lia.
  rewrite Zplus_mod_idemp_l. f_equal. lia.
Qed.

Lemma wrap_int_period (z : Z) : wrap_int (z + 2 ^ 64) = wrap_int z.
Proof.
  unfold wrap_signed. f_equal.
  replace (z + 2 ^ 64 + 2 ^ (64 - 1)) with (z + 2 ^ (64 - 1) + 1 * 2 ^ 64) by lia.
  apply Z_mod_plus_full.
Qed.

(** ** ColorDiff *)

(** One channel of [ColorDiff]: subtract in [uint32], convert, square. *)
Lemma channel_square (a b : Z) :
  0 <= a < 2 ^ 16 -> 0 <= b < 2 ^ 16 ->
  wrap_int (wrap_int (wrap_uint32 (a - b)) * wrap_int (wrap_uint32 (a - b)))
  = channelDiff (a - b).
Proof.
  intros Ha Hb. unfold channelDiff, wrap_uint32.
  destruct (Z.ltb_spec (a - b) 0) as [Hneg|Hpos].
  - replace ((a - b) mod 2 ^ 32) with (a - b + 2 ^ 32).
    2:{ apply Z.mod_unique with (q := -1); lia. }
    rewrite (wrap_int_small (a - b + 2 ^ 32)) by (unfold int_range; lia).
    replace ((a - b + 2 ^ 32) * (a - b + 2 ^ 32))
      with ((a - b) ^ 2 + 2 ^ 33 * (a - b) + 2 ^ 64) by lia.
    rewrite wrap_int_period. apply wrap_int_small. unfold int_range. nia.
  - rewrite Z.mod_small by lia.
    rewrite (wrap_int_small (a - b)) by (unfold int_range; lia).
    replace ((a - b) * (a - b)) with ((a - b) ^ 2) by lia.
    apply wrap_int_small. unfold int_range. nia.
Qed.

Lemma channelDiff_bound (a b : Z) :
  0 <= a < 2 ^ 16 -> 0 <= b < 2 ^ 16 -> - 2 ^ 49 <= channelDiff (a - b) <= 2 ^ 32.
Proof.
  intros Ha Hb. unfold channelDiff. destruct (Z.ltb_spec (a - b) 0); nia.
Qed.

(** On 16-bit channels [ColorDiff] is the sum of the three channel terms:
    no other operation wraps. *)
Lemma ColorDiff_channels (x y : Color) :
  channel16 x -> channel16 y ->
  ColorDiff x y
  = channelDiff (R x - R y) + channelDiff (G x - G y) + channelDiff (B x - B y).
Proof.
  intros (HR & HG & HB) (HR' & HG' & HB').
  unfold ColorDiff, ColorDiff_at. cbv zeta.
  rewrite !channel_square by done.
  pose proof (channelDiff_bound _ _ HR HR').
  pose proof (channelDiff_bound _ _ HG HG').
  pose proof (channelDiff_bound _ _ HB HB').
  rewrite (wrap_int_small (channelDiff (R x - R y) + channelDiff (G x - G y)))
    by (unfold int_range; lia).
  apply wrap_int_small. unfold int_range. lia.
Qed.

(** [ColorDiff] is the squared distance exactly when no channel of [x]
    lies below that of [y]. *)
Lemma ColorDiff_sqdist_iff (x y : Color) :
  channel16 x -> channel16 y ->
  ColorDiff x y = sqdist x y <-> R y <= R x /\ G y <= G x /\ B y <= B x.
Proof.
  intros Hx Hy. rewrite ColorDiff_channels by done.
  destruct Hx as (HR & HG & HB), Hy as (HR' & HG' & HB').
  unfold sqdist, channelDiff.
  destruct (Z.ltb_spec (R x - R y) 0), (Z.ltb_spec (G x - G y) 0),
    (Z.ltb_spec (B x - B y) 0); lia.
Qed.

(** C5.  With a red channel of [0] against [65535] the unsigned
    subtraction wraps and [ColorDiff] is negative: it is not the squared
    distance [65535^2].  The same holds where [int] has 32 bits. *)
Theorem ColorDiff_not_sqdist :
  let x := mkColor 0 0 0 in
  let y := mkColor 65535 0 0 in
  channel16 x /\ channel16 y
  /\ sqdist x y = 4294836225
  /\ ColorDiff x y = -562937068650495
  /\ ColorDiff_at 32 x y = -131071.
Proof. vm_compute. repeat split; intros; discriminate. Qed.


(** ** Degenerate lines *)

(** The lossy detector leaves its loop at once on a line of length 0 or 1
    and returns the initial [minidx]. *)
Lemma ArrayPeriodicityJPGPlus_short (colors : list Color) :
  len colors <= 1 -> ArrayPeriodicityJPGPlus colors = Ok 1.
Proof.
  intros H. unfold ArrayPeriodicityJPGPlus.
  replace (Z.to_nat (len colors - 1)) with 0%nat by lia. done.
Qed.

Lemma ArrayPeriodicityPNG_single (c : Color) : ArrayPeriodicityPNG [c] = Ok 1.
Proof. reflexivity. Qed.

(** C4.  On the empty line the lossless detector reads [prefixArray[-1]]
    of an empty slice and panics, where the lossy detector returns 1. *)
Theorem ArrayPeriodicityPNG_empty_panics :
  ArrayPeriodicityPNG [] = Panic /\ ArrayPeriodicityJPGPlus [] = Ok 1.
Proof. split; reflexivity. Qed.


(** ** The frequency aggregator *)

Lemma occurrences_nil (p : Z) : occurrences p [] = 0.
Proof. reflexivity. Qed.

Lemma occurrences_cons (p x : Z) (arr : list Z) :
  occurrences p (x :: arr) = (if decide (x = p) then 1 else 0) + occurrences p arr.
Proof.
  unfold occurrences, len. rewrite filter_cons.
  destruct (decide (x = p)); simpl; lia.
Qed.

Lemma occurrences_bounds (p : Z) (arr : list Z) :
  0 <= occurrences p arr <= len arr.
Proof.
  induction arr as [|x arr IH]; [done|].
  rewrite occurrences_cons. unfold len in *. simpl length.
  destruct (decide (x = p)); lia.
Qed.

Lemma occurrences_pos (p : Z) (arr : list Z) :
  0 < occurrences p arr <-> p ∈ arr.
Proof.
  induction arr as [|x arr IH].
  - rewrite occurrences_nil. split; [lia|]. by intros ?%not_elem_of_nil.
  - rewrite occurrences_cons, elem_of_cons.
    pose proof (occurrences_bounds p arr).
    destruct (decide (x = p)) as [->|Hne]; [split; [auto|lia]|].
    rewrite Z.add_0_l, IH. split; [auto|]. intros [->|?]; done.
Qed.

(** The tally holds, for every period seen, how often it was seen. *)
Lemma foldl_tally_step_lookup (arr : list Z) :
  forall (m : gmap Z Z) (k : Z),
    (forall k, 0 <= default 0 (m !! k)
               /\ default 0 (m !! k) + len arr < 2 ^ 63) ->
    foldl tally_step m arr !! k
    = if decide (k ∈ arr)
      then Some (default 0 (m !! k) + occurrences k arr)
      else m !! k.
Proof.
  induction arr as [|x arr IH]; intros m k Hm.
  - simpl foldl. destruct (decide (k ∈ [])) as [H%not_elem_of_nil|]; done.
  - simpl foldl. assert (len (x :: arr) = len arr + 1) as Hlen.
    { unfold len. simpl length. lia. }
    assert (wrap_int (default 0 (m !! x) + 1) = default 0 (m !! x) + 1) as Hw.
    { apply wrap_int_small. unfold int_range.
      pose proof (Hm x). unfold len in *. lia. }
    rewrite IH.
    2:{ intros k'. unfold tally_step. rewrite Hw.
        destruct (decide (x = k')) as [->|Hne].
        - rewrite lookup_insert_eq. simpl. pose proof (Hm k'). lia.
        - rewrite lookup_insert_ne by done. pose proof (Hm k'). lia. }
    unfold tally_step. rewrite Hw, occurrences_cons.
    pose proof (occurrences_pos k arr) as Hpos.
    pose proof (occurrences_bounds k arr) as Hocc.
    destruct (decide (x = k)) as [->|Hne].
    + rewrite lookup_insert_eq. simpl.
      rewrite (decide_True (P := k ∈ k :: arr)) by apply list_elem_of_here.
      destruct (decide (k ∈ arr)) as [Hin|Hnin]; [f_equal; lia|].
      assert (occurrences k arr = 0) as ->.
      { destruct (decide (0 < occurrences k arr)) as [Hp|]; [|lia].
        by apply Hpos in Hp. }
      f_equal; lia.
    + rewrite lookup_insert_ne by done.
      destruct (decide (k ∈ arr)) as [Hin|Hnin].
      * rewrite decide_True by (by apply list_elem_of_further). f_equal; lia.
      * rewrite decide_False; [done|]. rewrite elem_of_cons. intros [->|?]; done.
Qed.

Lemma tally_lookup (arr : list Z) (k : Z) :
  len arr < 2 ^ 63 ->
  tally arr !! k = if decide (k ∈ arr) then Some (occurrences k arr) else None.
Proof.
  intros Hlen. unfold tally. rewrite foldl_tally_step_lookup.
  - rewrite lookup_empty. simpl. destruct (decide (k ∈ arr)); [f_equal; lia|done].
  - intros k'. rewrite lookup_empty. simpl. unfold len in *. lia.
Qed.

Lemma Zsum_cons (x : Z) (l : list Z) : Zsum (x :: l) = x + Zsum l.
Proof. reflexivity. Qed.

Lemma Zsum_app (l1 l2 : list Z) : Zsum (l1 ++ l2) = Zsum l1 + Zsum l2.
Proof. unfold Zsum. induction l1 as [|x l1 IH]; simpl; lia. Qed.

Lemma Zsum_Permutation (l1 l2 : list Z) : l1 ≡ₚ l2 -> Zsum l1 = Zsum l2.
Proof.
  unfold Zsum. induction 1; simpl; lia.
Qed.

Lemma totalFrequency_Zsum (order : list (Z * Z)) :
  totalFrequency order = wrap_int (Zsum order.*2).
Proof.
  unfold totalFrequency.
  assert (forall a, foldl (fun total p => wrap_int (total + p.2)) (wrap_int a) order
                    = wrap_int (a + Zsum order.*2)) as H.
  { induction order as [|p order IH]; intros a.
    - simpl. f_equal. change (Zsum []) with 0. lia.
    - simpl foldl. rewrite wrap_int_add_l, IH, fmap_cons, Zsum_cons.
      f_equal. lia. }
  specialize (H 0). rewrite Z.add_0_l in H. exact H.
Qed.

(** One occurrence count for each key of a duplicate-free list of keys
    that covers [arr]: together they count every line once. *)
Lemma Zsum_indicator (x : Z) (keys : list Z) :
  NoDup keys -> x ∈ keys ->
  Zsum (map (fun k => if decide (x = k) then 1 else 0) keys) = 1.
Proof.
  unfold Zsum. induction 1 as [|k keys Hk Hnd IH]; [by intros ?%not_elem_of_nil|].
  intros Hin. simpl. destruct (decide (x = k)) as [->|Hne].
  - assert (foldr Z.add 0 (map (fun k0 => if decide (k = k0) then 1 else 0) keys) = 0)
      as ->; [|lia].
    clear IH Hnd Hin. induction keys as [|k' keys IH]; [done|]. simpl.
    rewrite IH by (intros ?; apply Hk; by apply list_elem_of_further).
    rewrite decide_False; [done|]. intros ->. apply Hk, list_elem_of_here.
  - apply elem_of_cons in Hin as [?|Hin]; [done|]. rewrite IH by done. lia.
Qed.

Lemma Zsum_occurrences (arr keys : list Z) :
  NoDup keys -> (forall x, x ∈ arr -> x ∈ keys) ->
  Zsum (map (fun k => occurrences k arr) keys) = len arr.
Proof.
  intros Hnd. induction arr as [|x arr IH]; intros Hcover.
  - unfold Zsum. clear Hnd Hcover. induction keys; simpl; [done|].
    rewrite occurrences_nil. lia.
  - assert (map (fun k => occurrences k (x :: arr)) keys
            = map (fun k => (if decide (x = k) then 1 else 0) + occurrences k arr) keys)
      as ->.
    { apply map_ext. intros k. apply occurrences_cons. }
    assert (forall (f g : Z -> Z) (l : list Z),
              Zsum (map (fun k => f k + g k) l) = Zsum (map f l) + Zsum (map g l))
      as Hadd.
    { intros f g l. unfold Zsum. induction l; simpl; lia. }
    rewrite Hadd, Zsum_indicator, IH.
    + unfold len. simpl length. lia.
    + intros y Hy. apply Hcover. by apply list_elem_of_further.
    + done.
    + apply Hcover, list_elem_of_here.
Qed.

#[export] Instance pair_ge_trans pf : Transitive (pair_ge pf).
Proof. intros a b c. unfold pair_ge. lia. Qed.

#[export] Instance pair_ge_total pf : Total (pair_ge pf).
Proof. intros a b. unfold pair_ge. lia. Qed.

(** The evaluated run is one of the runs. *)
Lemma frequencyPairs_is_run (arr : list Z) (pf : bool) :
  frequencyPairs_run arr pf (frequencyPairs arr pf).1 (frequencyPairs arr pf).2.
Proof.
  unfold frequencyPairs. simpl. constructor.
  - done.
  - apply merge_sort_Permutation.
  - apply StronglySorted_merge_sort; apply _.
Qed.

(** Every run lists the entries of the tally. *)
Lemma frequencyPairs_run_elem (arr : list Z) (pf : bool) pairs total :
  len arr < 2 ^ 63 ->
  frequencyPairs_run arr pf pairs total ->
  forall p c, (p, c) ∈ pairs <-> p ∈ arr /\ c = occurrences p arr.
Proof.
  intros Hlen Hrun p c. destruct Hrun as [order pairs Horder Hpairs _].
  rewrite Hpairs, Horder, elem_of_map_to_list, tally_lookup by done.
  destruct (decide (p ∈ arr)); split.
  - intros [= <-]. done.
  - intros [_ ->]. done.
  - done.
  - intros [? _]. done.
Qed.

(** What every run of the aggregator yields. *)
Lemma frequencyPairs_run_facts (arr : list Z) (pf : bool)
  (pairs : list (Z * Z)) (total : Z) :
  len arr < 2 ^ 63 ->
  frequencyPairs_run arr pf pairs total ->
  NoDup pairs.*1
  /\ (forall p, p ∈ pairs.*1 <-> p ∈ arr)
  /\ Zsum pairs.*2 = len arr
  /\ total = len arr.
Proof.
  intros Hlen Hrun.
  pose proof (frequencyPairs_run_elem arr pf pairs total Hlen Hrun) as Helem.
  destruct Hrun as [order pairs Horder Hpairs _].
  assert (NoDup pairs.*1) as Hnd.
  { rewrite Hpairs, Horder. apply NoDup_fst_map_to_list. }
  assert (forall p, p ∈ pairs.*1 <-> p ∈ arr) as Hkeys.
  { intros p. rewrite list_elem_of_fmap. split.
    - intros ([p' c] & -> & Hin). by apply Helem in Hin as [? _].
    - intros Hin. exists (p, occurrences p arr). split; [done|].
      by apply Helem. }
  assert (Zsum pairs.*2 = len arr) as Hsum.
  { rewrite <- (Zsum_occurrences arr pairs.*1 Hnd) by (intros x; apply Hkeys).
    f_equal. rewrite <- list_fmap_compose. apply list_fmap_ext.
    intros i [p c] Hi. simpl. apply Helem. by eapply list_elem_of_lookup_2. }
  split; [done|]. split; [done|]. split; [done|].
  rewrite totalFrequency_Zsum.
  rewrite <- (Zsum_Permutation pairs.*2 order.*2) by (by rewrite Hpairs).
  rewrite Hsum. apply wrap_int_small. unfold int_range, len in *. lia.
Qed.

(** C7.  The pairs of a scan hold every period that was seen exactly
    once, each with the number of lines that gave it, which is at least
    1; the counts add up to the number of lines, and that is the total
    returned. *)
Theorem frequencyPairs_partition (arr : list Z) (preferFrequency : bool)
  (pairs : list (Z * Z)) (total : Z) :
  len arr < 2 ^ 63 ->
  frequencyPairs_run arr preferFrequency pairs total ->
  NoDup pairs.*1
  /\ (forall p, p ∈ pairs.*1 <-> p ∈ arr)
  /\ (forall p c, (p, c) ∈ pairs -> c = occurrences p arr /\ 1 <= c)
  /\ Zsum pairs.*2 = len arr
  /\ total = len arr.
Proof.
  intros Hlen Hrun.
  destruct (frequencyPairs_run_facts arr preferFrequency pairs total Hlen Hrun)
    as (Hnd & Hkeys & Hsum & Htotal).
  split; [done|]. split; [done|]. split; [|done].
  intros p c Hin.
  apply (frequencyPairs_run_elem arr preferFrequency pairs total Hlen Hrun)
    in Hin as [Hin ->].
  split; [done|]. apply occurrences_pos in Hin. lia.
Qed.

Lemma frequencyPairs_partition_witness :
  let arr := [4; 7; 4] in
  let out := frequencyPairs arr false in
  NoDup (out.1).*1
  /\ (forall p, p ∈ (out.1).*1 <-> p ∈ arr)
  /\ (forall p c, (p, c) ∈ out.1 -> c = occurrences p arr /\ 1 <= c)
  /\ Zsum (out.1).*2 = len arr
  /\ out.2 = len arr.
Proof.
  intros arr out.
  apply (frequencyPairs_partition arr false out.1 out.2).
  - vm_compute. reflexivity.
  - apply frequencyPairs_is_run.
Defined.


(** ** The sums of the lossy detector, over the integers *)

Lemma shiftSum_loop_exact (colors : list Color) (k : Z) :
  0 <= k ->
  forall (rest : list Color) (idx : nat) (sum : Z),
    drop idx colors = rest ->
    shiftSum_loop colors rest k (Z.of_nat idx) (wrap_int sum)
    = Ok (wrap_int (sum + Zsum (map (shiftTerm colors k) (seq idx (length rest))))).
Proof.
  intros Hk. induction rest as [|color rest IH]; intros idx sum Hdrop.
  - simpl. change (Zsum []) with 0. by rewrite Z.add_0_r.
  - assert (colors !! idx = Some color) as Hidx.
    { rewrite <- (Nat.add_0_r idx), <- lookup_drop, Hdrop. done. }
    assert (drop (S idx) colors = rest) as Hdrop'.
    { replace (S idx) with (idx + 1)%nat by lia.
      by rewrite <- drop_drop, Hdrop. }
    pose proof (lookup_lt_Some _ _ _ Hidx) as Hlt.
    cbn [shiftSum_loop]. unfold irem.
    destruct (Z.eqb_spec (len colors) 0) as [H0|_]; [unfold len in H0; lia|].
    cbn.
    pose proof (Z.rem_bound_pos (Z.of_nat idx + k) (len colors) ltac:(lia)
                  ltac:(unfold len; lia)) as Hrem.
    destruct (lookup_lt_is_Some_2 colors
                (Z.to_nat (Z.rem (Z.of_nat idx + k) (len colors))))
      as [c Hc]; [unfold len in *; lia|].
    assert (index colors (Z.rem (Z.of_nat idx + k) (len colors)) = Ok c) as ->
      by (apply index_lookup_Z; [lia|done]).
    cbn. rewrite wrap_int_add_l.
    replace (Z.of_nat idx + 1) with (Z.of_nat (S idx)) by lia.
    rewrite IH by done. f_equal. f_equal.
    simpl length. simpl seq. fold (Zsum (map (shiftTerm colors k)
                                            (seq (S idx) (length rest)))).
    unfold shiftTerm at 2. rewrite Hc, Hidx. lia.
Qed.

(** The sum the detector holds for shift [k] is the sum over all
    positions, reduced to [int]. *)
Lemma shiftSum_exact (colors : list Color) (k : Z) :
  0 <= k -> shiftSum colors k = Ok (wrap_int (exactShiftSum colors k)).
Proof.
  intros Hk. unfold shiftSum, exactShiftSum.
  exact (shiftSum_loop_exact colors k Hk colors 0%nat 0 eq_refl).
Qed.

Lemma Zsum_bounds (lo hi : Z) (l : list Z) :
  Forall (fun x => lo <= x <= hi) l ->
  len l * lo <= Zsum l <= len l * hi.
Proof.
  unfold len. induction 1 as [|x l Hx Hl IH]; [simpl; unfold Zsum; simpl; lia|].
  rewrite Zsum_cons. simpl length. nia.
Qed.

Lemma shiftTerm_bounds (colors : list Color) (k : Z) (i : nat) :
  Forall channel16 colors ->
  - (3 * 2 ^ 49) <= shiftTerm colors k i <= 3 * 2 ^ 32.
Proof.
  intros Hall. rewrite Forall_lookup in Hall. unfold shiftTerm.
  destruct (colors !! Z.to_nat _) as [c|] eqn:Hc; [|lia].
  destruct (colors !! i) as [color|] eqn:Hi; [|lia].
  pose proof (Hall _ _ Hc) as Hc16. pose proof (Hall _ _ Hi) as Hi16.
  rewrite ColorDiff_channels by done.
  destruct Hc16 as (? & ? & ?), Hi16 as (? & ? & ?).
  pose proof (channelDiff_bound (R c) (R color) ltac:(done) ltac:(done)).
  pose proof (channelDiff_bound (G c) (G color) ltac:(done) ltac:(done)).
  pose proof (channelDiff_bound (B c) (B color) ltac:(done) ltac:(done)).
  lia.
Qed.

(** On lines of at most 4096 colors with 16-bit channels no sum wraps. *)
Lemma shiftSum_no_overflow (colors : list Color) (k : Z) :
  Forall channel16 colors -> len colors <= 4096 -> 0 <= k ->
  shiftSum colors k = Ok (exactShiftSum colors k).
Proof.
  intros Hall Hlen Hk. rewrite shiftSum_exact by done. f_equal.
  apply wrap_int_small. unfold int_range, exactShiftSum.
  pose proof (Zsum_bounds (- (3 * 2 ^ 49)) (3 * 2 ^ 32)
                (map (shiftTerm colors k) (seq 0 (length colors)))) as Hb.
  unfold len in Hb, Hlen. rewrite length_map, length_seq in Hb.
  destruct Hb as [Hlo Hhi].
  { apply Forall_map, Forall_forall. intros i _. by apply shiftTerm_bounds. }
  nia.
Qed.





(** ** The threshold selector *)

Lemma skip_loop_spec (rest : list (Z * Z)) (thr : Z) :
  forall idx,
    idx <= skip_loop rest thr idx <= idx + len rest
    /\ (forall (i : nat) p, rest !! i = Some p ->
          idx + Z.of_nat i < skip_loop rest thr idx -> p.2 < thr)
    /\ (forall p, rest !! Z.to_nat (skip_loop rest thr idx - idx) = Some p ->
          thr <= p.2).
Proof.
  induction rest as [|p rest IH]; intros idx.
  - simpl. unfold len. simpl. split; [lia|]. split; [intros; lia|].
    intros p. by rewrite lookup_nil.
  - simpl skip_loop. assert (len (p :: rest) = len rest + 1) as Hlen.
    { unfold len. simpl length. lia. }
    assert (0 <= len rest) as Hnn by (unfold len; lia).
    destruct (Z.ltb_spec p.2 thr) as [Hlt|Hge].
    + destruct (IH (idx + 1)) as (Hrange & Hskip & Hstop).
      split; [lia|]. split.
      * intros [|i] q Hq Hi; simpl in Hq.
        -- by injection Hq as <-.
        -- apply (Hskip i q Hq). lia.
      * intros q Hq. apply Hstop.
        replace (Z.to_nat (skip_loop rest thr (idx + 1) - idx))
          with (S (Z.to_nat (skip_loop rest thr (idx + 1) - (idx + 1)))) in Hq
          by lia.
        exact Hq.
    + split; [lia|]. split; [intros; lia|].
      rewrite Z.sub_diag. simpl. intros q [= <-]. done.
Qed.

(** With a tolerance of [0] the threshold is [0], or the least [int]
    where [float64(total) * 0] is not a number. *)
Lemma threshold_zero (total : Z) : threshold total 0%float <= 0.
Proof.
  unfold threshold, float_to_int. rewrite mul_spec.
  change (Prim2SF 0) with (S754_zero false).
  destruct (Prim2SF (float64_of_int total)) as [s| | |s m e]; vm_compute;
    try destruct s; intros; discriminate.
Qed.

Lemma selectPeriod_head (p : Z * Z) (rest : list (Z * Z)) (total : Z)
  (tolerance : float) :
  threshold total tolerance <= p.2 ->
  selectPeriod (p :: rest) total tolerance
  = Ok (p.1, (float64_of_int p.2 / float64_of_int total * 100)%float).
Proof.
  intros Hthr. unfold selectPeriod. simpl skip_loop.
  destruct (Z.ltb_spec p.2 (threshold total tolerance)) as [?|_]; [lia|].
  unfold irem. destruct (Z.eqb_spec (len (p :: rest)) 0) as [H0|_].
  { unfold len in H0. simpl in H0. lia. }
  rewrite Z.rem_0_l by (unfold len; simpl; lia). done.
Qed.

Lemma occurrences_not_in (q : Z) (arr : list Z) :
  q ∉ arr -> occurrences q arr = 0.
Proof.
  intros Hq. pose proof (occurrences_bounds q arr).
  destruct (decide (0 < occurrences q arr)) as [Hp|]; [|lia].
  by apply occurrences_pos in Hp.
Qed.

(** C8.  With [preferFrequency] the tolerance is forced to [0] and the
    selector returns a period that no other period occurs more often
    than, whatever its share of the lines. *)
Theorem selectPeriod_preferFrequency (arr : list Z) (tolerance : float)
  (pairs : list (Z * Z)) (total : Z) :
  arr <> [] -> len arr < 2 ^ 63 ->
  frequencyPairs_run arr true pairs total ->
  effectiveTolerance true tolerance = 0%float
  /\ exists p share,
       selectPeriod pairs total (effectiveTolerance true tolerance) = Ok (p, share)
       /\ p ∈ arr
       /\ forall q, occurrences q arr <= occurrences p arr.
Proof.
  intros Hne Hlen Hrun. split; [done|].
  pose proof (frequencyPairs_run_elem arr true pairs total Hlen Hrun) as Helem.
  assert (exists p0 rest, pairs = p0 :: rest) as (p0 & rest & ->).
  { destruct arr as [|x arr]; [done|].
    assert ((x, occurrences x (x :: arr)) ∈ pairs) as Hin.
    { apply Helem. split; [apply list_elem_of_here|done]. }
    destruct pairs; [by apply elem_of_nil in Hin|eauto]. }
  assert (StronglySorted (pair_ge true) (p0 :: rest)) as Hsorted
    by (by destruct Hrun).
  destruct p0 as [p c].
  destruct (proj1 (Helem p c) (list_elem_of_here _ _)) as [Hp ->].
  exists p. eexists. split; [|split; [done|]].
  - unfold effectiveTolerance. apply selectPeriod_head. simpl.
    pose proof (threshold_zero total). apply occurrences_pos in Hp. lia.
  - intros q. destruct (decide (q ∈ arr)) as [Hq|Hq].
    + assert ((q, occurrences q arr) ∈ (p, occurrences p arr) :: rest) as Hin
        by (by apply Helem).
      apply elem_of_cons in Hin as [[= -> _]|Hin]; [done|].
      apply StronglySorted_inv in Hsorted as [_ Hall].
      rewrite Forall_forall in Hall. apply (Hall _ Hin).
    + rewrite (occurrences_not_in q arr Hq). apply occurrences_bounds.
Qed.

Lemma selectPeriod_preferFrequency_witness :
  let arr := [3; 8; 8; 5] in
  let out := frequencyPairs arr true in
  effectiveTolerance true 40%float = 0%float
  /\ exists p share,
       selectPeriod out.1 out.2 (effectiveTolerance true 40%float) = Ok (p, share)
       /\ p ∈ arr
       /\ forall q, occurrences q arr <= occurrences p arr.
Proof.
  intros arr out.
  apply (selectPeriod_preferFrequency arr 40%float out.1 out.2).
  - discriminate.
  - vm_compute. reflexivity.
  - apply frequencyPairs_is_run.
Defined.


Lemma occurrences_Permutation (p : Z) (arr arr' : list Z) :
  arr ≡ₚ arr' -> occurrences p arr = occurrences p arr'.
Proof. intros H. unfold occurrences, len. by rewrite H. Qed.

(** Sorted by period, the pairs of a scan come in one order only. *)
Lemma frequencyPairs_run_two (arr : list Z) (pairs : list (Z * Z)) (total : Z)
  (p1 p2 : Z) :
  len arr < 2 ^ 63 -> p2 < p1 ->
  (forall x, x ∈ arr <-> x = p1 \/ x = p2) ->
  frequencyPairs_run arr false pairs total ->
  pairs = [(p1, occurrences p1 arr); (p2, occurrences p2 arr)].
Proof.
  intros Hlen Hlt Harr Hrun.
  pose proof (frequencyPairs_run_elem arr false pairs total Hlen Hrun) as Helem.
  assert (NoDup pairs) as Hnd.
  { destruct Hrun as [order pairs Horder Hpairs _].
    apply (NoDup_fmap_1 fst). rewrite Hpairs, Horder.
    apply NoDup_fst_map_to_list. }
  assert (pairs ≡ₚ [(p1, occurrences p1 arr); (p2, occurrences p2 arr)]) as Hperm.
  { apply NoDup_Permutation; [done| |].
    - apply NoDup_cons. split; [|apply NoDup_singleton].
      rewrite list_elem_of_singleton. intros [= ? _]. lia.
    - intros [p c]. rewrite Helem, Harr, !elem_of_cons, elem_of_nil.
      split.
      + intros [[->| ->] ->]; auto.
      + intros [[= -> ->]|[[= -> ->]|[]]]; auto. }
  symmetry in Hperm. apply Permutation_length_2_inv in Hperm as [->| ->]; [done|].
  exfalso. assert (StronglySorted (pair_ge false)
                     [(p2, occurrences p2 arr); (p1, occurrences p1 arr)])
    as Hsorted by (by destruct Hrun).
  apply StronglySorted_inv in Hsorted as [_ Hall].
  apply Forall_cons in Hall as [Hge _]. unfold pair_ge in Hge. simpl in Hge. lia.
Qed.

(** C2.  For 90 lines of period 4 and 10 of period 7, sorted by period:
    a tolerance of 0.5 selects period 4 with its share of 90 percent; a
    tolerance of 0.95 is met by no pair and the selector wraps around to
    the first pair of the order, which is period 7 with 10 percent. *)
Theorem selectPeriod_example (arr : list Z) (pairs : list (Z * Z)) (total : Z) :
  arr ≡ₚ replicate 90 4 ++ replicate 10 7 ->
  frequencyPairs_run arr false pairs total ->
  pairs = [(7, 10); (4, 90)] /\ total = 100
  /\ selectPeriod pairs total (50 / 100)%float = Ok (4, 90%float)
  /\ skip_loop pairs (threshold total (95 / 100)%float) 0 = len pairs
  /\ selectPeriod pairs total (95 / 100)%float = Ok (7, 10%float).
Proof.
  intros Harr Hrun.
  assert (len arr = 100) as Hlen by (unfold len; by rewrite Harr).
  assert (pairs = [(7, 10); (4, 90)]) as ->.
  { rewrite (frequencyPairs_run_two arr pairs total 7 4); [|lia|lia| |done].
    - by rewrite !(occurrences_Permutation _ _ _ Harr).
    - intros x. rewrite Harr, elem_of_app, !elem_of_replicate. split.
      + intros [[-> _]|[-> _]]; auto.
      + intros [->| ->]; [right|left]; done. }
  assert (total = 100) as ->.
  { destruct (frequencyPairs_run_facts arr false _ total ltac:(lia) Hrun)
      as (_ & _ & _ & ->). done. }
  repeat split; vm_compute; reflexivity.
Qed.

Lemma selectPeriod_example_witness :
  let out := frequencyPairs (replicate 90 4 ++ replicate 10 7) false in
  out.1 = [(7, 10); (4, 90)] /\ out.2 = 100
  /\ selectPeriod out.1 out.2 (50 / 100)%float = Ok (4, 90%float)
  /\ skip_loop out.1 (threshold out.2 (95 / 100)%float) 0 = len out.1
  /\ selectPeriod out.1 out.2 (95 / 100)%float = Ok (7, 10%float).
Proof.
  intros out.
  apply (selectPeriod_example (replicate 90 4 ++ replicate 10 7) out.1 out.2).
  - reflexivity.
  - apply frequencyPairs_is_run.
Defined.

(** With a tolerance of 0.95 the selector does not return period 4. *)
Lemma selectPeriod_wraps_to_first :
  let out := frequencyPairs (replicate 90 4 ++ replicate 10 7) false in
  selectPeriod out.1 out.2 (95 / 100)%float = Ok (7, 10%float)
  /\ selectPeriod out.1 out.2 (95 / 100)%float <> Ok (4, 90%float).
Proof. vm_compute. split; [reflexivity|discriminate]. Qed.

(** C6.  The scan passes over exactly the pairs at the front whose count
    is below [int(float64(total) * t)], and stops at the first pair whose
    count is not. *)
Theorem skip_loop_threshold (pairs : list (Z * Z)) (total : Z) (t : float) :
  let thr := threshold total t in
  let idx := skip_loop pairs thr 0 in
  0 <= idx <= len pairs
  /\ (forall (i : nat) p, pairs !! i = Some p -> Z.of_nat i < idx -> p.2 < thr)
  /\ (forall p, pairs !! Z.to_nat idx = Some p -> thr <= p.2).
Proof.
  intros thr idx. destruct (skip_loop_spec pairs thr 0) as (H1 & H2 & H3).
  fold idx in H1, H2, H3. split; [lia|]. split.
  - intros i p Hp Hi. apply (H2 i p Hp). lia.
  - intros p Hp. apply H3. by rewrite Z.sub_0_r.
Qed.

(** One line of period 5 and two of period 2, with a tolerance of 0.5:
    the share of period 5 is a third, below the tolerance, and yet its
    count 1 is not below [int(3 * 0.5) = 1]: the pair is accepted. *)
Lemma skip_loop_accepts_below_share :
  let out := frequencyPairs [5; 2; 2] false in
  out = ([(5, 1); (2, 2)], 3)
  /\ share_below 1 3 0.5%float = true
  /\ threshold 3 0.5%float = 1
  /\ skip_loop out.1 (threshold out.2 0.5%float) 0 = 0
  /\ selectPeriod out.1 out.2 0.5%float = Ok (5, (1 / 3 * 100)%float).
Proof. vm_compute. repeat split; reflexivity. Qed.


(** ** Rectangles *)

Lemma In_Rect_true (x y : Z) (r : Rectangle) :
  In_Rect x y r = true
  <-> X (Min r) <= x < X (Max r) /\ Y (Min r) <= y < Y (Max r).
Proof.
  unfold In_Rect. rewrite !andb_true_iff, !Z.leb_le, !Z.ltb_lt. lia.
Qed.

Lemma Empty_true (r : Rectangle) :
  Empty r = true <-> X (Max r) <= X (Min r) \/ Y (Max r) <= Y (Min r).
Proof. unfold Empty. rewrite orb_true_iff, !Z.leb_le. done. Qed.

Lemma In_Rect_Empty (x y : Z) (r : Rectangle) :
  Empty r = true -> In_Rect x y r = false.
Proof.
  intros H%Empty_true. apply not_true_is_false. rewrite In_Rect_true. lia.
Qed.

Lemma In_Rect_Intersect (x y : Z) (r s : Rectangle) :
  In_Rect x y (Intersect r s) = In_Rect x y r && In_Rect x y s.
Proof.
  apply eq_true_iff_eq. rewrite andb_true_iff, !In_Rect_true.
  unfold Intersect.
  destruct (Empty _) eqn:HE.
  - apply Empty_true in HE. simpl in *. lia.
  - simpl. lia.
Qed.

Lemma Rect_ordered (x0 y0 x1 y1 : Z) :
  x0 <= x1 -> y0 <= y1 ->
  Rect x0 y0 x1 y1 = mkRectangle (mkPoint x0 y0) (mkPoint x1 y1).
Proof.
  intros Hx Hy. unfold Rect.
  destruct (Z.ltb_spec x1 x0); [lia|]. destruct (Z.ltb_spec y1 y0); [lia|]. done.
Qed.

Lemma small_wrap (z : Z) : - 2 ^ 63 <= z < 2 ^ 63 -> wrap_int z = z.
Proof. apply wrap_int_small. Qed.

(** ** The crop extractor *)

Lemma NewRGBA_tile (tw th : Z) :
  0 <= tw < 2 ^ 63 -> 0 <= th < 2 ^ 63 -> 4 * tw * th < 2 ^ 63 ->
  NewRGBA (Rect 0 0 tw th)
  = Ok (mkRGBA (replicate (Z.to_nat (tw * th)) zeroPixel) tw
          (mkRectangle (mkPoint 0 0) (mkPoint tw th))).
Proof.
  intros Hw Hh Hbuf. rewrite Rect_ordered by lia. unfold NewRGBA, Dx, Dy. simpl.
  rewrite !Z.sub_0_r, !wrap_int_small by (unfold int_range; lia).
  destruct (Z.ltb_spec tw 0); [lia|]. destruct (Z.ltb_spec th 0); [lia|].
  destruct (Z.leb_spec (2 ^ 63) (4 * tw * th)); [lia|]. done.
Qed.

(** Position [(x, y)] of a tile of width [tw], in the pixel buffer. *)
Lemma tile_offset (tw th x y : Z) :
  0 <= x < tw -> 0 <= y < th ->
  0 <= y * tw + x < tw * th
  /\ (y * tw + x) mod tw = x /\ (y * tw + x) / tw = y.
Proof.
  intros Hx Hy. split; [nia|]. split.
  - rewrite Z.add_comm, Z.mod_add by lia. apply Z.mod_small. lia.
  - rewrite Z.add_comm, Z.div_add by lia. rewrite Z.div_small by lia. lia.
Qed.

(** Drawing onto a fresh tile from the source position [(ox, oy)]: a
    pixel whose source lies in the image is copied, any other stays zero. *)
Lemma Draw_fresh_RGBAAt (img : Image) (tw th ox oy x y : Z) :
  small_Rectangle (Bounds img) -> small ox -> small oy ->
  0 <= tw <= 2 ^ 61 -> 0 <= th <= 2 ^ 61 ->
  0 <= x < tw -> 0 <= y < th ->
  let r := mkRectangle (mkPoint 0 0) (mkPoint tw th) in
  let dst := mkRGBA (replicate (Z.to_nat (tw * th)) zeroPixel) tw r in
  RGBAAt (Draw dst r img (mkPoint ox oy)) x y
  = if In_Rect (ox + x) (oy + y) (Bounds img)
    then toPixel (At img (ox + x) (oy + y))
    else zeroPixel.
Proof.
  intros (Hb1 & Hb2 & Hb3 & Hb4) Hox Hoy Htw Hth Hx Hy r dst.
  unfold small in *.
  destruct (tile_offset tw th x y Hx Hy) as (Hoff & Hmod & Hdiv).
  assert (In_Rect x y r = true) as Hin by (apply In_Rect_true; simpl; lia).
  set (shifted := Rectangle_Add (Bounds img) (Point_Sub (Min r) (mkPoint ox oy))).
  assert (In_Rect x y shifted = In_Rect (ox + x) (oy + y) (Bounds img)) as Hshift.
  { apply eq_true_iff_eq. rewrite !In_Rect_true. subst shifted.
    unfold Rectangle_Add, Point_Sub. simpl.
    rewrite !(wrap_int_small (0 - _)) by (unfold int_range; lia).
    rewrite !wrap_int_small by (unfold int_range; lia). lia. }
  unfold Draw, clip. fold shifted. simpl RGBA_Rect.
  set (r2 := Intersect (Intersect r r) shifted).
  assert (In_Rect x y r2 = In_Rect (ox + x) (oy + y) (Bounds img)) as Hr2.
  { subst r2. by rewrite !In_Rect_Intersect, Hin, Hshift. }
  destruct (Empty r2) eqn:HE.
  - rewrite <- Hr2, (In_Rect_Empty x y r2 HE).
    unfold RGBAAt. simpl RGBA_Rect. rewrite Hin. simpl.
    rewrite !Z.sub_0_r. rewrite lookup_replicate_2 by lia. done.
  - unfold RGBAAt. simpl RGBA_Rect. rewrite Hin. simpl Pix. simpl Stride. simpl.
    rewrite !Z.sub_0_r, list_lookup_imap, lookup_replicate_2 by lia. simpl.
    rewrite Z2Nat.id, Hmod, Hdiv, !Z.add_0_l, Hr2 by lia.
    destruct (In_Rect (ox + x) (oy + y) (Bounds img)) eqn:Hsrc; [|done].
    apply In_Rect_true in Hr2.
    assert (small_Rectangle r2) as (Hs1 & Hs2 & _).
    { subst r2. unfold small_Rectangle, small.
      assert (X (Min (Intersect (Intersect r r) shifted)) <= x
              /\ Y (Min (Intersect (Intersect r r) shifted)) <= y) by lia.
      assert (0 <= X (Min (Intersect (Intersect r r) shifted))
              /\ 0 <= Y (Min (Intersect (Intersect r r) shifted))).
      { unfold Intersect. repeat (destruct (Empty _); simpl); lia. }
      assert (X (Max (Intersect (Intersect r r) shifted)) <= tw
              /\ Y (Max (Intersect (Intersect r r) shifted)) <= th).
      { unfold Intersect. repeat (destruct (Empty _); simpl); lia. }
      lia. }
    unfold small in *. change (Min r) with (mkPoint 0 0). simpl X. simpl Y.
    rewrite (wrap_int_small (X (Min r2))) by (unfold int_range; lia).
    rewrite (wrap_int_small (Y (Min r2))) by (unfold int_range; lia).
    rewrite !wrap_int_small by (unfold int_range; lia).
    f_equal. f_equal; lia.
Qed.

Lemma Draw_shape (dst : RGBA) (r : Rectangle) (src : Image) (sp : Point) :
  RGBA_Rect (Draw dst r src sp) = RGBA_Rect dst
  /\ Stride (Draw dst r src sp) = Stride dst
  /\ length (Pix (Draw dst r src sp)) = length (Pix dst).
Proof.
  unfold Draw. destruct (clip _ _ _ _) as [r' sp'].
  destruct (Empty r'); [done|]. simpl. by rewrite length_imap.
Qed.

(** What [cropTile] yields, whether or not the requested rectangle lies
    in the source image. *)
Lemma cropTile_spec (img : Image) (tw th ox oy : Z) :
  small_Rectangle (Bounds img) -> small ox -> small oy ->
  0 <= tw <= 2 ^ 61 -> 0 <= th <= 2 ^ 61 -> 4 * tw * th < 2 ^ 63 ->
  exists t,
    cropTile img tw th ox oy = Ok t
    /\ RGBA_Rect t = mkRectangle (mkPoint 0 0) (mkPoint tw th)
    /\ len (Pix t) = tw * th
    /\ forall x y, 0 <= x < tw -> 0 <= y < th ->
         RGBAAt t x y
         = if In_Rect (ox + x) (oy + y) (Bounds img)
           then toPixel (At img (ox + x) (oy + y))
           else zeroPixel.
Proof.
  intros Hb Hox Hoy Htw Hth Hbuf. unfold cropTile.
  rewrite NewRGBA_tile by lia. unfold mbind, result_bind. cbv beta iota.
  unfold small in Hox, Hoy.
  rewrite !wrap_int_small by (unfold int_range; lia).
  rewrite (Rect_ordered ox oy) by lia. simpl Min. simpl RGBA_Rect.
  eexists. split; [reflexivity|].
  pose proof (Draw_shape
    (mkRGBA (replicate (Z.to_nat (tw * th)) zeroPixel) tw
       (mkRectangle (mkPoint 0 0) (mkPoint tw th)))
    (mkRectangle (mkPoint 0 0) (mkPoint tw th)) img (mkPoint ox oy))
    as (Hrect & _ & Hpix).
  split; [exact Hrect|]. split.
  - unfold len. rewrite Hpix. simpl. rewrite length_replicate. nia.
  - intros x y Hx Hy. by apply Draw_fresh_RGBAAt.
Qed.

Lemma exceeds_bounds_outside (img : Image) (tw th ox oy : Z) :
  0 < tw -> 0 < th -> exceeds_bounds img tw th ox oy ->
  exists x y, 0 <= x < tw /\ 0 <= y < th
              /\ In_Rect (ox + x) (oy + y) (Bounds img) = false.
Proof.
  intros Htw Hth Hex. unfold exceeds_bounds in Hex.
  assert (forall x y, ~ (X (Min (Bounds img)) <= ox + x < X (Max (Bounds img))
                         /\ Y (Min (Bounds img)) <= oy + y < Y (Max (Bounds img))) ->
                      In_Rect (ox + x) (oy + y) (Bounds img) = false) as Hout.
  { intros x y H. apply not_true_is_false. by rewrite In_Rect_true. }
  destruct (decide (X (Min (Bounds img)) <= ox)) as [H1|H1];
    [|exists 0, 0; split; [lia|]; split; [lia|]; apply Hout; lia].
  destruct (decide (ox + tw <= X (Max (Bounds img)))) as [H2|H2];
    [|exists (tw - 1), 0; split; [lia|]; split; [lia|]; apply Hout; lia].
  destruct (decide (Y (Min (Bounds img)) <= oy)) as [H3|H3];
    [|exists 0, 0; split; [lia|]; split; [lia|]; apply Hout; lia].
  exists 0, (th - 1). split; [lia|]. split; [lia|]. apply Hout. lia.
Qed.

(** C3.  Where the requested rectangle reaches outside the source image
    the crop extractor reports no error: it yields a tile of the
    requested size in which the pixels whose source lies in the image are
    copied and the others are left zero, and there is such a pixel. *)
Theorem cropTile_exceeding (img : Image) (rowPeriod colPeriod offsetX offsetY : Z) :
  small_Rectangle (Bounds img) -> small offsetX -> small offsetY ->
  0 < rowPeriod <= 2 ^ 61 -> 0 < colPeriod <= 2 ^ 61 ->
  4 * rowPeriod * colPeriod < 2 ^ 63 ->
  exceeds_bounds img rowPeriod colPeriod offsetX offsetY ->
  ~ reports_error (cropTile img rowPeriod colPeriod offsetX offsetY)
  /\ exists t,
       cropTile img rowPeriod colPeriod offsetX offsetY = Ok t
       /\ RGBA_Rect t = mkRectangle (mkPoint 0 0) (mkPoint rowPeriod colPeriod)
       /\ len (Pix t) = rowPeriod * colPeriod
       /\ (forall x y, 0 <= x < rowPeriod -> 0 <= y < colPeriod ->
             RGBAAt t x y
             = if In_Rect (offsetX + x) (offsetY + y) (Bounds img)
               then toPixel (At img (offsetX + x) (offsetY + y))
               else zeroPixel)
       /\ exists x y, 0 <= x < rowPeriod /\ 0 <= y < colPeriod
                      /\ In_Rect (offsetX + x) (offsetY + y) (Bounds img) = false
                      /\ RGBAAt t x y = zeroPixel.
Proof.
  intros Hb Hox Hoy Htw Hth Hbuf Hex.
  destruct (cropTile_spec img rowPeriod colPeriod offsetX offsetY)
    as (t & Hrun & Hrect & Hlen & Hat); [done|done|done|lia|lia|done|].
  split; [rewrite Hrun; simpl; tauto|]. exists t. repeat (split; [done|]).
  destruct (exceeds_bounds_outside img rowPeriod colPeriod offsetX offsetY)
    as (x & y & Hx & Hy & Hout); [lia|lia|done|].
  exists x, y. repeat (split; [done|]). by rewrite Hat, Hout.
Qed.

Lemma cropTile_exceeding_witness :
  ~ reports_error (cropTile sample_image 2 2 3 0)
  /\ exists t,
       cropTile sample_image 2 2 3 0 = Ok t
       /\ RGBA_Rect t = mkRectangle (mkPoint 0 0) (mkPoint 2 2)
       /\ len (Pix t) = 2 * 2
       /\ (forall x y, 0 <= x < 2 -> 0 <= y < 2 ->
             RGBAAt t x y
             = if In_Rect (3 + x) (0 + y) (Bounds sample_image)
               then toPixel (At sample_image (3 + x) (0 + y))
               else zeroPixel)
       /\ exists x y, 0 <= x < 2 /\ 0 <= y < 2
                      /\ In_Rect (3 + x) (0 + y) (Bounds sample_image) = false
                      /\ RGBAAt t x y = zeroPixel.
Proof.
  apply (cropTile_exceeding sample_image 2 2 3 0);
    try (unfold small_Rectangle, small; simpl; lia).
  unfold exceeds_bounds. simpl. lia.
Defined.

(** The requested rectangle [[3, 5) x [0, 2)] leaves the 4 x 2 image;
    the run ends with a tile whose second column is blank. *)
Lemma cropTile_silent :
  exceeds_bounds sample_image 2 2 3 0
  /\ ~ reports_error (cropTile sample_image 2 2 3 0)
  /\ cropTile sample_image 2 2 3 0
     = Ok (mkRGBA [mkPixel 4 0 0 255; zeroPixel; mkPixel 14 0 0 255; zeroPixel]
             2 (mkRectangle (mkPoint 0 0) (mkPoint 2 2))).
Proof.
  split; [unfold exceeds_bounds; simpl; lia|].
  split; [vm_compute; tauto|]. vm_compute. reflexivity.
Qed.

(** While the offsets do not exceed the periods, the two versions of the
    crop extractor start from the same source position
    [(offsetX, offsetY)] and yield the same tile. *)
Theorem cropTile_versions_agree (img : Image)
  (rowPeriod colPeriod offsetX offsetY : Z) :
  0 <= rowPeriod -> 0 <= colPeriod ->
  offsetX <= rowPeriod -> offsetY <= colPeriod ->
  int_range (offsetX + rowPeriod) -> int_range (offsetY + colPeriod) ->
  cropTile_v1 img rowPeriod colPeriod offsetX offsetY
  = cropTile img rowPeriod colPeriod offsetX offsetY.
Proof.
  intros Htw Hth Hox Hoy Hrx Hry. unfold cropTile_v1, cropTile.
  rewrite !wrap_int_small by done.
  rewrite (Rect_ordered offsetX offsetY rowPeriod colPeriod) by done.
  rewrite (Rect_ordered offsetX offsetY (offsetX + rowPeriod)) by lia.
  done.
Qed.

Lemma cropTile_versions_agree_witness :
  cropTile_v1 sample_image 2 2 1 0 = cropTile sample_image 2 2 1 0.
Proof.
  apply cropTile_versions_agree; unfold int_range; lia.
Defined.

(** The older version starts from the source position
    [(min offsetX tileWidth, min offsetY tileHeight)]: [image.Rect] swaps
    the corners it is given out of order. *)
Lemma cropTile_v1_min_corner (img : Image) (rowPeriod colPeriod offsetX offsetY : Z) :
  0 <= rowPeriod -> 0 <= colPeriod ->
  int_range (Z.min offsetX rowPeriod + rowPeriod) ->
  int_range (Z.min offsetY colPeriod + colPeriod) ->
  cropTile_v1 img rowPeriod colPeriod offsetX offsetY
  = cropTile img rowPeriod colPeriod
      (Z.min offsetX rowPeriod) (Z.min offsetY colPeriod).
Proof.
  intros Htw Hth Hrx Hry. unfold cropTile_v1, cropTile.
  rewrite !wrap_int_small by done.
  rewrite (Rect_ordered (Z.min offsetX rowPeriod) (Z.min offsetY colPeriod)) by lia.
  assert (Min (Rect offsetX offsetY rowPeriod colPeriod)
          = mkPoint (Z.min offsetX rowPeriod) (Z.min offsetY colPeriod)) as ->.
  { unfold Rect.
    destruct (Z.ltb_spec rowPeriod offsetX), (Z.ltb_spec colPeriod offsetY);
      simpl; f_equal; lia. }
  done.
Qed.

(** C10.  The two versions of the crop extractor are not equivalent: the
    older one passes [image.Rect(offsetX, offsetY, tileWidth, tileHeight)],
    whose corners are swapped when an offset exceeds the period.  With
    periods 2, 2 and offsets 3, 0 on a 4 x 2 image the newer version
    copies from the source position (3, 0), as the offset asks, and the
    older one from (2, 0): the first pixel of its tile is the source
    pixel at (2, 0), and the two tiles differ. *)
Theorem cropTile_versions_differ :
  cropTile sample_image 2 2 3 0
  = Ok (mkRGBA [mkPixel 4 0 0 255; zeroPixel; mkPixel 14 0 0 255; zeroPixel]
          2 (mkRectangle (mkPoint 0 0) (mkPoint 2 2)))
  /\ cropTile_v1 sample_image 2 2 3 0
     = Ok (mkRGBA [mkPixel 3 0 0 255; mkPixel 4 0 0 255;
                   mkPixel 13 0 0 255; mkPixel 14 0 0 255]
             2 (mkRectangle (mkPoint 0 0) (mkPoint 2 2)))
  /\ (exists t, cropTile_v1 sample_image 2 2 3 0 = Ok t
                /\ RGBAAt t 0 0 = toPixel (At sample_image 2 0)
                /\ RGBAAt t 0 0 <> toPixel (At sample_image 3 0))
  /\ (exists t, cropTile sample_image 2 2 3 0 = Ok t
                /\ RGBAAt t 0 0 = toPixel (At sample_image 3 0))
  /\ cropTile_v1 sample_image 2 2 3 0 <> cropTile sample_image 2 2 3 0.
Proof.
  split; [vm_compute; reflexivity|]. split; [vm_compute; reflexivity|].
  split.
  { eexists. split; [vm_compute; reflexivity|].
    split; [vm_compute; reflexivity|]. vm_compute. discriminate. }
  split.
  { eexists. split; [vm_compute; reflexivity|]. vm_compute. reflexivity. }
  vm_compute. discriminate.
Qed.


(** * Further properties *)

(** ** The lossless detector and periods *)

Lemma ArrayPeriodicityPNG_least_period_nat (colors : list Color) :
  colors <> [] ->
  exists p : nat,
    ArrayPeriodicityPNG colors = Ok (Z.of_nat p)
    /\ (1 <= p <= length colors)%nat
    /\ longest_border colors (length colors - p)
    /\ has_period colors p
    /\ forall q, (1 <= q)%nat -> has_period colors q -> (p <= q)%nat.
Proof.
  intros Hne.
  destruct (ArrayPeriodicityPNG_longest_border colors Hne) as (b & Hb & Hrun).
  pose proof Hb as Hpi. apply longest_border_prefix_pi in Hpi.
  assert (b < length colors)%nat as Hlt by apply Hpi.
  exists (length colors - b)%nat. split; [|split; [lia|split; [|split]]].
  - rewrite Hrun. unfold len. f_equal. lia.
  - by replace (length colors - (length colors - b))%nat with b by lia.
  - apply prefix_border_has_period; [lia|].
    replace (length colors - (length colors - b))%nat with b by lia. apply Hpi.
  - intros q Hq Hper. destruct (decide (q <= length colors)%nat) as [Hle|]; [|lia].
    apply prefix_border_has_period in Hper; [|lia].
    destruct Hpi as [_ Hmax]. specialize (Hmax _ Hper). lia.
Qed.

(** X1.  On a non-empty line the lossless detector returns the least
    period of the line: a shift [p] in [1, n] that maps the line onto
    itself, and no smaller shift does. *)
Theorem ArrayPeriodicityPNG_least_period (colors : list Color) :
  colors <> [] ->
  exists p : nat,
    ArrayPeriodicityPNG colors = Ok (Z.of_nat p)
    /\ (1 <= p <= length colors)%nat
    /\ has_period colors p
    /\ forall q, (1 <= q)%nat -> has_period colors q -> (p <= q)%nat.
Proof.
  intros Hne.
  destruct (ArrayPeriodicityPNG_least_period_nat colors Hne)
    as (p & Hrun & Hp & _ & Hper & Hmin).
  by exists p.
Qed.

Lemma ArrayPeriodicityPNG_least_period_witness :
  let colors := [mkColor 1 2 3; mkColor 4 5 6; mkColor 1 2 3] in
  exists p : nat,
    ArrayPeriodicityPNG colors = Ok (Z.of_nat p)
    /\ (1 <= p <= length colors)%nat
    /\ has_period colors p
    /\ forall q, (1 <= q)%nat -> has_period colors q -> (p <= q)%nat.
Proof.
  intros colors. apply (ArrayPeriodicityPNG_least_period colors). discriminate.
Defined.

(** X2.  The lossless detector returns the length of the line exactly
    when no non-empty proper prefix of the line is also a suffix. *)
Theorem ArrayPeriodicityPNG_full_length (colors : list Color) :
  colors <> [] ->
  ArrayPeriodicityPNG colors = Ok (len colors)
  <-> forall k, (0 < k)%nat -> ~ is_border colors k.
Proof.
  intros Hne.
  destruct (ArrayPeriodicityPNG_least_period_nat colors Hne)
    as (p & Hrun & Hp & [Hb Hmax] & _). rewrite Hrun. unfold len. split.
  - intros [= Heq] k Hk Hbk. specialize (Hmax k Hbk). lia.
  - intros Hnone. f_equal.
    destruct (decide (p = length colors)) as [->|Hne']; [done|].
    destruct (Hnone (length colors - p)%nat); [lia|done].
Qed.

Lemma ArrayPeriodicityPNG_full_length_witness :
  let colors := [mkColor 1 2 3; mkColor 4 5 6] in
  ArrayPeriodicityPNG colors = Ok (len colors)
  <-> forall k, (0 < k)%nat -> ~ is_border colors k.
Proof.
  intros colors. apply (ArrayPeriodicityPNG_full_length colors). discriminate.
Defined.

(** X3.  On a line of [m >= 2] copies of any non-empty block the
    lossless detector returns a period of the block that divides the
    length of the block. *)
Theorem ArrayPeriodicityPNG_repeat_divides (block : list Color) (m : nat) :
  block <> [] -> (2 <= m)%nat ->
  exists q : nat,
    ArrayPeriodicityPNG (repeat_block m block) = Ok (Z.of_nat q)
    /\ (1 <= q <= length block)%nat
    /\ (length block mod q = 0)%nat
    /\ has_period block q.
Proof.
  intros Hne Hm.
  assert (0 < length block)%nat as Hp0 by (destruct block; [done|simpl; lia]).
  pose proof (length_repeat_block block m) as Hlen.
  assert (repeat_block m block <> []) as Hw.
  { intros Hnil. rewrite Hnil in Hlen. simpl in Hlen. nia. }
  destruct (ArrayPeriodicityPNG_least_period_nat _ Hw)
    as (q & Hrun & Hq & Hb & Hper & Hmin).
  pose proof (Hmin (length block) Hp0 (repeat_block_has_period block m)) as Hle.
  exists q. split; [done|]. split; [lia|]. split.
  - apply longest_border_prefix_pi in Hb.
    pose proof (least_period_divides (repeat_block m block) _ (length block)
                  Hb Hp0 (repeat_block_has_period block m)) as Hdiv.
    replace (length (repeat_block m block)
             - (length (repeat_block m block) - q))%nat with q in Hdiv by lia.
    apply Hdiv. rewrite Hlen. nia.
  - apply (repeat_block_period_block block m); [lia|done].
Qed.

Lemma ArrayPeriodicityPNG_repeat_divides_witness :
  let block := [mkColor 1 2 3; mkColor 1 2 3] in
  exists q : nat,
    ArrayPeriodicityPNG (repeat_block 2 block) = Ok (Z.of_nat q)
    /\ (1 <= q <= length block)%nat
    /\ (length block mod q = 0)%nat
    /\ has_period block q.
Proof.
  intros block. apply (ArrayPeriodicityPNG_repeat_divides block 2);
    [discriminate|lia].
Defined.


(** ** The lossy detector: range and uniform lines *)

(** X4.  The lossy detector never panics: on every line it returns a
    shift [k >= 1], below the length of the line when the line has at
    least two colors and [1] otherwise. *)
Theorem ArrayPeriodicityJPGPlus_range (colors : list Color) :
  exists k,
    ArrayPeriodicityJPGPlus colors = Ok k
    /\ 1 <= k
    /\ (k < len colors \/ (len colors <= 1 /\ k = 1)).
Proof.
  destruct (decide (2 <= len colors)) as [Hn|Hn].
  - destruct (ArrayPeriodicityJPGPlus_least_argmin colors Hn)
      as (k & sum & Hrun & Hk & _).
    exists k. split; [done|]. split; [lia|]. left. lia.
  - exists 1. rewrite ArrayPeriodicityJPGPlus_short by lia.
    split; [done|]. split; [lia|]. right. lia.
Qed.

Lemma ColorDiff_same (c : Color) : ColorDiff c c = 0.
Proof.
  unfold ColorDiff, ColorDiff_at. rewrite !Z.sub_diag. reflexivity.
Qed.

Lemma shiftSum_replicate (n : nat) (c : Color) (k : Z) :
  0 <= k -> shiftSum (replicate n c) k = Ok 0.
Proof.
  intros Hk. rewrite shiftSum_exact by done. f_equal.
  assert (exactShiftSum (replicate n c) k = 0) as ->; [|done].
  unfold exactShiftSum.
  assert (forall l, Forall (fun i => shiftTerm (replicate n c) k i = 0) l ->
                    Zsum (map (shiftTerm (replicate n c) k) l) = 0) as H.
  { induction 1 as [|i l Hi _ IH]; [done|]. rewrite map_cons, Zsum_cons. lia. }
  apply H, Forall_forall. intros i _. unfold shiftTerm.
  destruct (replicate n c !! Z.to_nat _) as [c1|] eqn:H1; [|done].
  destruct (replicate n c !! i) as [c2|] eqn:H2; [|done].
  apply lookup_replicate in H1 as [-> _]. apply lookup_replicate in H2 as [-> _].
  apply ColorDiff_same.
Qed.

(** X5.  On a line of one color repeated, both detectors return 1. *)
Theorem detectors_uniform_line (n : nat) (c : Color) :
  (1 <= n)%nat ->
  ArrayPeriodicityPNG (replicate n c) = Ok 1
  /\ ArrayPeriodicityJPGPlus (replicate n c) = Ok 1.
Proof.
  intros Hn. split.
  - assert (replicate n c <> []) as Hne by (destruct n; [lia|done]).
    destruct (ArrayPeriodicityPNG_least_period_nat _ Hne)
      as (p & -> & Hp & _ & _ & Hmin).
    assert (has_period (replicate n c) 1) as Hper.
    { intros i Hi. rewrite length_replicate in Hi.
      by rewrite !lookup_replicate_2 by lia. }
    specialize (Hmin 1%nat ltac:(lia) Hper). f_equal. lia.
  - destruct (decide (2 <= len (replicate n c))) as [H2|H2].
    + destruct (ArrayPeriodicityJPGPlus_least_argmin _ H2)
        as (k & sum & -> & Hk & Hsum & Hall).
      rewrite shiftSum_replicate in Hsum by lia. injection Hsum as <-.
      destruct (Hall 1 ltac:(lia)) as (s' & Hs' & _ & Htie).
      rewrite shiftSum_replicate in Hs' by lia. injection Hs' as <-.
      f_equal. specialize (Htie eq_refl). lia.
    + apply ArrayPeriodicityJPGPlus_short. lia.
Qed.

Lemma detectors_uniform_line_witness :
  ArrayPeriodicityPNG (replicate 5 (mkColor 9 8 7)) = Ok 1
  /\ ArrayPeriodicityJPGPlus (replicate 5 (mkColor 9 8 7)) = Ok 1.
Proof. apply (detectors_uniform_line 5 (mkColor 9 8 7)). lia. Defined.

(** ** ColorDiff on 16-bit channels *)

(** X6.  On 16-bit channels [ColorDiff x y] is the squared distance
    plus [2^33] times the sum of the negative channel differences: each
    channel where [x] is below [y] takes [2^33 * (y - x)] off. *)
Theorem ColorDiff_closed_form (x y : Color) :
  channel16 x -> channel16 y ->
  ColorDiff x y
  = sqdist x y
    + 2 ^ 33 * (Z.min 0 (R x - R y) + Z.min 0 (G x - G y) + Z.min 0 (B x - B y)).
Proof.
  intros Hx Hy. rewrite ColorDiff_channels by done. unfold sqdist, channelDiff.
  destruct (Z.ltb_spec (R x - R y) 0), (Z.ltb_spec (G x - G y) 0),
    (Z.ltb_spec (B x - B y) 0); lia.
Qed.

Lemma ColorDiff_closed_form_witness :
  let x := mkColor 10 200 30 in
  let y := mkColor 70 100 30 in
  ColorDiff x y
  = sqdist x y
    + 2 ^ 33 * (Z.min 0 (R x - R y) + Z.min 0 (G x - G y) + Z.min 0 (B x - B y)).
Proof.
  intros x y. apply (ColorDiff_closed_form x y);
    unfold channel16; simpl; lia.
Defined.

(** X7.  On 16-bit channels [ColorDiff x y] is negative as soon as one
    channel of [x] is below that of [y]; it is the squared distance, and
    so not negative, otherwise. *)
Theorem ColorDiff_negative (x y : Color) :
  channel16 x -> channel16 y ->
  ColorDiff x y < 0 <-> R x < R y \/ G x < G y \/ B x < B y.
Proof.
  intros Hx Hy. rewrite ColorDiff_channels by done.
  destruct Hx as (HR & HG & HB), Hy as (HR' & HG' & HB').
  pose proof (channelDiff_bound _ _ HR HR').
  pose proof (channelDiff_bound _ _ HG HG').
  pose proof (channelDiff_bound _ _ HB HB').
  assert (forall a b, 0 <= a < 2 ^ 16 -> 0 <= b < 2 ^ 16 ->
            (a < b -> channelDiff (a - b) <= 1 - 2 ^ 33)
            /\ (b <= a -> 0 <= channelDiff (a - b) <= 2 ^ 32 - 2 ^ 17 + 1)) as Hch.
  { intros a b Ha Hb. unfold channelDiff.
    destruct (Z.ltb_spec (a - b) 0); split; intros; nia. }
  destruct (Hch _ _ HR HR'), (Hch _ _ HG HG'), (Hch _ _ HB HB').
  destruct (decide (R x < R y)), (decide (G x < G y)), (decide (B x < B y)); lia.
Qed.

Lemma ColorDiff_negative_witness :
  let x := mkColor 10 200 30 in
  let y := mkColor 70 100 30 in
  ColorDiff x y < 0 <-> R x < R y \/ G x < G y \/ B x < B y.
Proof.
  intros x y. apply (ColorDiff_negative x y); unfold channel16; simpl; lia.
Defined.


(** ** The luma detector *)

Lemma graySum_loop_ok (grayscale rest : list float) (k : Z) :
  grayscale <> [] -> 0 <= k ->
  forall idx sum, 0 <= idx ->
    exists v, graySum_loop grayscale rest k idx sum = Ok v.
Proof.
  intros Hne Hk. assert (0 < len grayscale) as Hn.
  { unfold len. destruct grayscale; [done|simpl; lia]. }
  induction rest as [|gray rest IH]; intros idx sum Hidx; [by eexists|].
  cbn [graySum_loop]. unfold irem.
  destruct (Z.eqb_spec (len grayscale) 0) as [?|_]; [lia|]. cbn.
  pose proof (Z.rem_bound_pos (idx + k) (len grayscale) ltac:(lia) Hn) as Hrem.
  destruct (lookup_lt_is_Some_2 grayscale
              (Z.to_nat (Z.rem (idx + k) (len grayscale))))
    as [g Hg]; [unfold len in *; lia|].
  assert (index grayscale (Z.rem (idx + k) (len grayscale)) = Ok g) as ->
    by (apply index_lookup_Z; [lia|done]).
  cbn. apply IH. lia.
Qed.

Lemma gray_loop_range (grayscale : list float) (steps : nat) :
  grayscale <> [] ->
  forall k minsum minidx,
    1 <= k -> 1 <= minidx <= Z.max 1 (k - 1) ->
    exists r,
      gray_loop steps grayscale k minsum minidx = Ok r
      /\ 1 <= r <= Z.max 1 (k + Z.of_nat steps - 1).
Proof.
  intros Hne. induction steps as [|steps IH]; intros k minsum minidx Hk Hidx.
  - exists minidx. split; [done|]. lia.
  - cbn [gray_loop].
    destruct (graySum_loop_ok grayscale grayscale k Hne ltac:(lia) 0 0%float
                ltac:(lia)) as [sum Hsum].
    unfold graySum. rewrite Hsum. cbn.
    replace (k + Z.of_nat (S steps) - 1) with (k + 1 + Z.of_nat steps - 1) by lia.
    destruct (k =? 1); [apply IH; lia|].
    destruct (sum <? minsum)%float; apply IH; lia.
Qed.

(** X8.  The luma detector never panics: on every line it returns a
    shift [k >= 1], below the length of the line when the line has at
    least two colors and [1] otherwise. *)
Theorem ArrayPeriodicityJPG_range (colors : list Color) :
  exists k,
    ArrayPeriodicityJPG colors = Ok k
    /\ 1 <= k
    /\ (k < len colors \/ (len colors <= 1 /\ k = 1)).
Proof.
  unfold ArrayPeriodicityJPG.
  destruct (decide (2 <= len colors)) as [Hn|Hn].
  - assert (Gray <$> colors <> []) as Hne.
    { destruct colors; [unfold len in Hn; simpl in Hn; lia|done]. }
    destruct (gray_loop_range (Gray <$> colors) (Z.to_nat (len colors - 1)) Hne
                1 0%float 1 ltac:(lia) ltac:(lia)) as (r & Hrun & Hr).
    exists r. split; [done|]. split; [lia|]. left. lia.
  - replace (Z.to_nat (len colors - 1)) with 0%nat by lia.
    exists 1. split; [done|]. split; [lia|]. right. lia.
Qed.

(** ** The aggregator: order of arrival and uniqueness *)

Lemma tally_step_comm (m : gmap Z Z) (x y : Z) :
  tally_step (tally_step m x) y = tally_step (tally_step m y) x.
Proof.
  unfold tally_step. destruct (decide (x = y)) as [->|Hne]; [done|].
  rewrite !(lookup_insert_ne _ _ _ _) by done.
  by rewrite insert_insert_ne by done.
Qed.

Lemma tally_Permutation (arr arr' : list Z) :
  arr ≡ₚ arr' -> tally arr = tally arr'.
Proof.
  unfold tally. generalize (∅ : gmap Z Z).
  intros m H. revert m. induction H as [|x l l' _ IH|x y l|l1 l2 l3 _ IH1 _ IH2];
    intros m; simpl.
  - done.
  - apply IH.
  - by rewrite tally_step_comm.
  - by rewrite IH1.
Qed.

(** X9.  The order in which the channel delivers the periods does not
    matter: two orders of the same periods have the same runs of the
    aggregator. *)
Theorem frequencyPairs_run_Permutation (arr arr' : list Z) (preferFrequency : bool)
  (pairs : list (Z * Z)) (total : Z) :
  arr ≡ₚ arr' ->
  frequencyPairs_run arr preferFrequency pairs total ->
  frequencyPairs_run arr' preferFrequency pairs total.
Proof.
  intros Hperm Hrun. destruct Hrun as [order pairs Horder Hpairs Hsorted].
  constructor; [|done..]. by rewrite <- (tally_Permutation arr arr' Hperm).
Qed.

Lemma frequencyPairs_run_Permutation_witness :
  frequencyPairs_run [7; 4; 4] false
    (frequencyPairs [4; 7; 4] false).1 (frequencyPairs [4; 7; 4] false).2.
Proof.
  apply (frequencyPairs_run_Permutation [4; 7; 4] [7; 4; 4]).
  - apply Permutation_swap.
  - apply frequencyPairs_is_run.
Defined.

Lemma map_to_list_same_key (m : gmap Z Z) (a b : Z * Z) :
  a ∈ map_to_list m -> b ∈ map_to_list m -> a.1 = b.1 -> a = b.
Proof.
  destruct a as [k v], b as [k' v']. simpl.
  rewrite !elem_of_map_to_list. intros Ha Hb <-. congruence.
Qed.

(** X10.  Sorted by period, the outcome of the aggregator is unique in
    spite of the map's iteration order and the unstable sort: every run
    yields the pairs by strictly falling period. *)
Theorem frequencyPairs_by_period_unique (arr : list Z) (pairs : list (Z * Z))
  (total : Z) :
  frequencyPairs_run arr false pairs total ->
  (pairs, total) = frequencyPairs arr false
  /\ StronglySorted (fun a b => b.1 < a.1) pairs.
Proof.
  intros Hrun. destruct Hrun as [order pairs Horder Hpairs Hsorted].
  assert (pairs ≡ₚ map_to_list (tally arr)) as Hperm by (by rewrite Hpairs).
  assert (forall a b, a ∈ pairs -> b ∈ pairs -> a.1 = b.1 -> a = b) as Hkey.
  { intros a b Ha Hb. rewrite Hperm in Ha, Hb.
    by apply (map_to_list_same_key (tally arr)). }
  split.
  - unfold frequencyPairs. f_equal.
    + apply (StronglySorted_unique_strong (pair_ge false)); [|done| |].
      * intros a b Ha Hb Hab Hba. apply Hkey; [done| |].
        -- by rewrite merge_sort_Permutation, <- Hperm in Hb.
        -- unfold pair_ge in *. simpl in *. lia.
      * apply StronglySorted_merge_sort; apply _.
      * by rewrite merge_sort_Permutation.
    + rewrite !totalFrequency_Zsum. f_equal. apply Zsum_Permutation.
      by rewrite Horder.
  - assert (NoDup pairs) as Hnd.
    { apply (NoDup_fmap_1 fst). rewrite Hperm. apply NoDup_fst_map_to_list. }
    clear Hperm Hpairs. induction Hsorted as [|a l Hl IH Ha]; [constructor|].
    apply NoDup_cons in Hnd as [Hnotin Hnd]. constructor.
    + apply IH; [|done]. intros x y Hx Hy. apply Hkey; by right.
    + rewrite Forall_forall in Ha |- *. intros b Hb.
      pose proof (Ha b Hb) as Hge. unfold pair_ge in Hge. simpl in Hge.
      destruct (decide (a.1 = b.1)) as [Heq|]; [|lia].
      assert (a = b) as -> by (apply Hkey; [by left|by right|done]). done.
Qed.

Lemma frequencyPairs_by_period_unique_witness :
  let out := frequencyPairs [4; 7; 4] false in
  (out.1, out.2) = frequencyPairs [4; 7; 4] false
  /\ StronglySorted (fun a b => b.1 < a.1) out.1.
Proof.
  intros out. apply (frequencyPairs_by_period_unique [4; 7; 4]).
  apply frequencyPairs_is_run.
Defined.


(** ** The selector: wrap-around and defaults *)

Lemma selectPeriod_cons_cases (pairs : list (Z * Z)) (total : Z) (t : float)
  (p0 : Z * Z) (rest : list (Z * Z)) :
  let thr := threshold total t in
  let share (p : Z * Z) := (float64_of_int p.2 / float64_of_int total * 100)%float in
  pairs = p0 :: rest ->
  (exists (i : nat) p,
     pairs !! i = Some p /\ thr <= p.2
     /\ (forall (j : nat) q, (j < i)%nat -> pairs !! j = Some q -> q.2 < thr)
     /\ selectPeriod pairs total t = Ok (p.1, share p))
  \/ (Forall (fun q => q.2 < thr) pairs
      /\ selectPeriod pairs total t = Ok (p0.1, share p0)).
Proof.
  intros thr share Hpairs.
  destruct (skip_loop_spec pairs thr 0) as (Hrange & Hskip & Hstop).
  assert (0 < len pairs) as Hlen by (rewrite Hpairs; unfold len; simpl; lia).
  unfold selectPeriod. fold thr. unfold irem.
  destruct (Z.eqb_spec (len pairs) 0) as [?|_]; [lia|]. cbn.
  set (idx := skip_loop pairs thr 0) in *.
  destruct (decide (idx < len pairs)) as [Hlt|Hge].
  - left. rewrite Z.rem_small by lia.
    destruct (lookup_lt_is_Some_2 pairs (Z.to_nat idx)) as [p Hp];
      [unfold len in *; lia|].
    exists (Z.to_nat idx), p. split; [done|]. split.
    { apply Hstop. by rewrite Z.sub_0_r. }
    split.
    { intros j q Hj Hq. apply (Hskip j q Hq). lia. }
    assert (index pairs idx = Ok p) as -> by (apply index_lookup_Z; [lia|done]).
    done.
  - right. assert (idx = len pairs) as -> by lia.
    rewrite Z.rem_same by lia. split.
    + apply Forall_lookup. intros j q Hq. apply (Hskip j q Hq).
      apply lookup_lt_Some in Hq. unfold len. lia.
    + rewrite Hpairs. done.
Qed.

(** The selector returns the period of one of the pairs. *)
Lemma selectPeriod_elem (pairs : list (Z * Z)) (total : Z) (t : float)
  (p : Z) (share : float) :
  selectPeriod pairs total t = Ok (p, share) -> exists c, (p, c) ∈ pairs.
Proof.
  intros Hrun. destruct pairs as [|p0 rest]; [discriminate|].
  destruct (selectPeriod_cons_cases (p0 :: rest) total t p0 rest eq_refl)
    as [(i & q & Hq & _ & _ & Hsel)|[_ Hsel]];
    rewrite Hsel in Hrun; injection Hrun as <- _.
  - exists q.2. destruct q. simpl. by eapply list_elem_of_lookup_2.
  - exists p0.2. destruct p0. apply list_elem_of_here.
Qed.

Lemma selectPeriod_nonempty (pairs : list (Z * Z)) (total : Z) (t : float) :
  pairs <> [] -> exists p share, selectPeriod pairs total t = Ok (p, share).
Proof.
  intros Hne. destruct pairs as [|p0 rest]; [done|].
  destruct (selectPeriod_cons_cases (p0 :: rest) total t p0 rest eq_refl)
    as [(i & q & _ & _ & _ & Hsel)|[_ Hsel]]; rewrite Hsel; eauto.
Qed.

(** X11.  The selector panics exactly on an empty list of pairs (the
    remainder by [len(pairs)] divides by zero).  Otherwise it returns the
    first pair whose count reaches the threshold, and when no pair does
    it wraps around to the first pair of the list. *)
Theorem selectPeriod_cases (pairs : list (Z * Z)) (total : Z) (t : float) :
  let thr := threshold total t in
  let share (p : Z * Z) := (float64_of_int p.2 / float64_of_int total * 100)%float in
  (selectPeriod pairs total t = Panic <-> pairs = [])
  /\ forall p0 rest, pairs = p0 :: rest ->
       (exists (i : nat) p,
          pairs !! i = Some p /\ thr <= p.2
          /\ (forall (j : nat) q, (j < i)%nat -> pairs !! j = Some q -> q.2 < thr)
          /\ selectPeriod pairs total t = Ok (p.1, share p))
       \/ (Forall (fun q => q.2 < thr) pairs
           /\ selectPeriod pairs total t = Ok (p0.1, share p0)).
Proof.
  intros thr share. split; [|intros p0 rest; apply selectPeriod_cons_cases].
  split.
  - intros Hpanic. destruct pairs as [|p0 rest]; [done|].
    destruct (selectPeriod_nonempty (p0 :: rest) total t) as (p & s & Hrun);
      [done|]. rewrite Hrun in Hpanic. discriminate.
  - intros ->. reflexivity.
Qed.

Lemma threshold_default_small (total : Z) :
  0 <= total < 1000 ->
  threshold total (effectiveTolerance false defaultTolerance) = 0.
Proof.
  intros Htotal.
  assert (Forall (fun n => threshold n (effectiveTolerance false defaultTolerance) = 0)
            (seqZ 0 1000)) as Hall.
  { apply (bool_decide_unpack _). vm_compute. exact I. }
  rewrite Forall_forall in Hall. apply Hall. apply elem_of_seqZ. lia.
Qed.

(** X12.  With the default tolerance of 0.1 percent and fewer than 1000
    lines the threshold is [0]: sorted by period, the selector returns
    the largest period any line gave. *)
Theorem selectPeriod_default_tolerance (arr : list Z) (pairs : list (Z * Z))
  (total : Z) :
  arr <> [] -> len arr < 1000 ->
  frequencyPairs_run arr false pairs total ->
  exists p share,
    selectPeriod pairs total (effectiveTolerance false defaultTolerance)
    = Ok (p, share)
    /\ p ∈ arr
    /\ forall q, q ∈ arr -> q <= p.
Proof.
  intros Hne Hlen Hrun.
  pose proof (frequencyPairs_run_elem arr false pairs total ltac:(lia) Hrun)
    as Helem.
  destruct (frequencyPairs_run_facts arr false pairs total ltac:(lia) Hrun)
    as (_ & _ & _ & Htotal).
  assert (exists p0 rest, pairs = p0 :: rest) as (p0 & rest & ->).
  { destruct arr as [|x arr]; [done|].
    assert ((x, occurrences x (x :: arr)) ∈ pairs) as Hin.
    { apply Helem. split; [apply list_elem_of_here|done]. }
    destruct pairs; [by apply elem_of_nil in Hin|eauto]. }
  assert (StronglySorted (pair_ge false) (p0 :: rest)) as Hsorted
    by (by destruct Hrun).
  destruct p0 as [p c].
  destruct (proj1 (Helem p c) (list_elem_of_here _ _)) as [Hp ->].
  exists p. eexists. split; [|split; [done|]].
  - apply selectPeriod_head. simpl.
    rewrite threshold_default_small by (unfold len in *; lia).
    apply occurrences_bounds.
  - intros q Hq.
    assert ((q, occurrences q arr) ∈ (p, occurrences p arr) :: rest) as Hin
      by (by apply Helem).
    apply elem_of_cons in Hin as [[= -> _]|Hin]; [done|].
    apply StronglySorted_inv in Hsorted as [_ Hall].
    rewrite Forall_forall in Hall. apply (Hall _ Hin).
Qed.

Lemma selectPeriod_default_tolerance_witness :
  let arr := [3; 8; 8; 5] in
  let out := frequencyPairs arr false in
  exists p share,
    selectPeriod out.1 out.2 (effectiveTolerance false defaultTolerance)
    = Ok (p, share)
    /\ p ∈ arr
    /\ forall q, q ∈ arr -> q <= p.
Proof.
  intros arr out. apply (selectPeriod_default_tolerance arr out.1 out.2).
  - discriminate.
  - vm_compute. reflexivity.
  - apply frequencyPairs_is_run.
Defined.


(** ** The line scans *)

(** Either detector, on a non-empty line, returns a period between 1 and
    the length of the line. *)
Lemma detector_range (colors : list Color) (imageFormat : Z) :
  colors <> [] ->
  exists p,
    (if imageFormat =? LOSSY then ArrayPeriodicityJPGPlus colors
     else ArrayPeriodicityPNG colors) = Ok p
    /\ 1 <= p <= len colors.
Proof.
  intros Hne.
  assert (1 <= len colors) as Hlen.
  { destruct colors; [done|]. unfold len. simpl. lia. }
  destruct (imageFormat =? LOSSY).
  - destruct (decide (2 <= len colors)) as [Hn|Hn].
    + destruct (ArrayPeriodicityJPGPlus_least_argmin colors Hn)
        as (k & sum & Hrun & Hk & _).
      exists k. split; [done|lia].
    + exists 1. rewrite ArrayPeriodicityJPGPlus_short by lia. split; [done|lia].
  - destruct (ArrayPeriodicityPNG_least_period_nat colors Hne) as (p & Hrun & Hp & _).
    exists (Z.of_nat p). split; [done|]. unfold len. lia.
Qed.

Lemma len_line {A : Type} (f : Z -> A) (w : Z) :
  0 <= w -> len (f <$> seqZ 0 w) = w.
Proof. intros Hw. unfold len. rewrite length_fmap, length_seqZ. lia. Qed.

Lemma line_nonempty {A : Type} (f : Z -> A) (w : Z) :
  1 <= w -> f <$> seqZ 0 w <> [].
Proof.
  intros Hw Hnil. pose proof (len_line f w ltac:(lia)) as Hlen.
  rewrite Hnil in Hlen. unfold len in Hlen. simpl in Hlen. lia.
Qed.

Lemma processRow_ok (img : Image) (imageFormat rowIdx : Z) :
  1 <= X (Max (Bounds img)) ->
  exists p, processRow img imageFormat rowIdx = Ok p
            /\ 1 <= p <= X (Max (Bounds img)).
Proof.
  intros Hw. unfold processRow.
  destruct (Z.ltb_spec (X (Max (Bounds img))) 0) as [?|_]; [lia|].
  destruct (detector_range
              ((fun x => colorAt img x rowIdx) <$> seqZ 0 (X (Max (Bounds img))))
              imageFormat) as (p & Hrun & Hp).
  { apply line_nonempty. lia. }
  rewrite len_line in Hp by lia. eauto.
Qed.

Lemma processCol_ok (img : Image) (imageFormat colIdx : Z) :
  1 <= Y (Max (Bounds img)) ->
  exists p, processCol img imageFormat colIdx = Ok p
            /\ 1 <= p <= Y (Max (Bounds img)).
Proof.
  intros Hh. unfold processCol.
  destruct (Z.ltb_spec (Y (Max (Bounds img))) 0) as [?|_]; [lia|].
  destruct (detector_range
              ((fun y => colorAt img colIdx y) <$> seqZ 0 (Y (Max (Bounds img))))
              imageFormat) as (p & Hrun & Hp).
  { apply line_nonempty. lia. }
  rewrite len_line in Hp by lia. eauto.
Qed.

Lemma processRow_no_width (img : Image) (imageFormat rowIdx : Z) :
  X (Max (Bounds img)) <= 0 ->
  processRow img imageFormat rowIdx
  = if (X (Max (Bounds img)) =? 0) && (imageFormat =? LOSSY) then Ok 1 else Panic.
Proof.
  intros Hw. unfold processRow.
  destruct (Z.ltb_spec (X (Max (Bounds img))) 0) as [Hneg|Hpos].
  - destruct (Z.eqb_spec (X (Max (Bounds img))) 0); [lia|done].
  - assert (X (Max (Bounds img)) = 0) as -> by lia. simpl.
    destruct (imageFormat =? LOSSY); reflexivity.
Qed.

Lemma processCol_no_height (img : Image) (imageFormat colIdx : Z) :
  Y (Max (Bounds img)) <= 0 ->
  processCol img imageFormat colIdx
  = if (Y (Max (Bounds img)) =? 0) && (imageFormat =? LOSSY) then Ok 1 else Panic.
Proof.
  intros Hh. unfold processCol.
  destruct (Z.ltb_spec (Y (Max (Bounds img))) 0) as [Hneg|Hpos].
  - destruct (Z.eqb_spec (Y (Max (Bounds img))) 0); [lia|done].
  - assert (Y (Max (Bounds img)) = 0) as -> by lia. simpl.
    destruct (imageFormat =? LOSSY); reflexivity.
Qed.

(** X13.  What [processRow] sends for a row, by the width
    [bounds.Max.X] of the image: with at least one column a period
    between 1 and the width, whatever the format and the pixels; with no
    column the lossy detector still answers 1 while the lossless one
    panics; with a negative width [make] panics. *)
Theorem processRow_outcome (img : Image) (imageFormat rowIdx : Z) :
  let w := X (Max (Bounds img)) in
  (1 <= w -> exists p, processRow img imageFormat rowIdx = Ok p /\ 1 <= p <= w)
  /\ (w = 0 -> processRow img imageFormat rowIdx
               = if imageFormat =? LOSSY then Ok 1 else Panic)
  /\ (w < 0 -> processRow img imageFormat rowIdx = Panic).
Proof.
  intros w. split; [apply processRow_ok|]. split; intros Hw.
  - rewrite processRow_no_width by (fold w; lia). fold w. by rewrite Hw.
  - rewrite processRow_no_width by (fold w; lia). fold w.
    destruct (Z.eqb_spec w 0); [lia|done].
Qed.

(** X14.  The same for [processCol], by the height [bounds.Max.Y]. *)
Theorem processCol_outcome (img : Image) (imageFormat colIdx : Z) :
  let h := Y (Max (Bounds img)) in
  (1 <= h -> exists p, processCol img imageFormat colIdx = Ok p /\ 1 <= p <= h)
  /\ (h = 0 -> processCol img imageFormat colIdx
               = if imageFormat =? LOSSY then Ok 1 else Panic)
  /\ (h < 0 -> processCol img imageFormat colIdx = Panic).
Proof.
  intros h. split; [apply processCol_ok|]. split; intros Hh.
  - rewrite processCol_no_height by (fold h; lia). fold h. by rewrite Hh.
  - rewrite processCol_no_height by (fold h; lia). fold h.
    destruct (Z.eqb_spec h 0); [lia|done].
Qed.

Lemma collect_Ok (P : Z -> Prop) (rs : list (result Z)) :
  Forall (fun r => exists v, r = Ok v /\ P v) rs ->
  exists vs, collect rs = Ok vs /\ length vs = length rs /\ Forall P vs.
Proof.
  induction 1 as [|r rs (v & -> & Hv) _ (vs & Hvs & Hlen & Hall)].
  - exists []. done.
  - exists (v :: vs). simpl. rewrite Hvs. simpl.
    split; [done|]. split; [by rewrite Hlen|by constructor].
Qed.

Lemma collect_lookup (rs : list (result Z)) (vs : list Z) :
  collect rs = Ok vs ->
  forall (i : nat) v, vs !! i = Some v -> rs !! i = Some (Ok v).
Proof.
  revert vs. induction rs as [|r rs IH]; intros vs Hrun i v Hv.
  - injection Hrun as <-. done.
  - simpl in Hrun. destruct r as [v0| |]; try discriminate.
    simpl in Hrun. destruct (collect rs) as [vs'| |]; try discriminate.
    injection Hrun as <-. destruct i as [|i].
    + injection Hv as ->. done.
    + simpl. by apply (IH vs').
Qed.

Lemma collect_Panic (rs : list (result Z)) (r : result Z) (rs' : list (result Z)) :
  rs = r :: rs' -> r = Panic -> collect rs = Panic.
Proof. intros -> ->. reflexivity. Qed.

Lemma scan_ok (f : Z -> result Z) (n bound : Z) :
  (forall i, exists p, f i = Ok p /\ 1 <= p <= bound) ->
  0 <= n ->
  exists ps, collect (f <$> seqZ 0 n) = Ok ps
             /\ len ps = n /\ Forall (fun p => 1 <= p <= bound) ps.
Proof.
  intros Hf Hn.
  destruct (collect_Ok (fun p => 1 <= p <= bound) (f <$> seqZ 0 n))
    as (ps & Hrun & Hlen & Hall).
  { apply Forall_fmap, Forall_forall. intros i _. apply Hf. }
  exists ps. split; [done|]. split; [|done].
  unfold len. rewrite Hlen, length_fmap, length_seqZ. lia.
Qed.

Lemma scan_line (f : Z -> result Z) (n : Z) (ps : list Z) (p : Z) :
  collect (f <$> seqZ 0 n) = Ok ps -> p ∈ ps ->
  exists i, 0 <= i < n /\ f i = Ok p.
Proof.
  intros Hrun Hp. apply list_elem_of_lookup_1 in Hp as [i Hi].
  pose proof (collect_lookup _ _ Hrun i p Hi) as Hr.
  rewrite list_lookup_fmap in Hr.
  destruct (seqZ 0 n !! i) as [y|] eqn:Hy; [|discriminate].
  apply lookup_seqZ in Hy as [-> Hlt]. simpl in Hr. injection Hr as Hr.
  exists (0 + Z.of_nat i). split; [lia|done].
Qed.

Lemma scanRows_ok (img : Image) (imageFormat : Z) :
  1 <= X (Max (Bounds img)) -> 0 <= Y (Max (Bounds img)) ->
  exists rows,
    scanRows img imageFormat = Ok rows
    /\ len rows = Y (Max (Bounds img))
    /\ Forall (fun p => 1 <= p <= X (Max (Bounds img))) rows.
Proof.
  intros Hw Hh. unfold scanRows.
  destruct (Z.ltb_spec (Y (Max (Bounds img))) 0) as [?|_]; [lia|].
  apply scan_ok; [|done]. intros y. by apply processRow_ok.
Qed.

Lemma scanCols_ok (img : Image) (imageFormat : Z) :
  0 <= X (Max (Bounds img)) -> 1 <= Y (Max (Bounds img)) ->
  exists cols,
    scanCols img imageFormat = Ok cols
    /\ len cols = X (Max (Bounds img))
    /\ Forall (fun p => 1 <= p <= Y (Max (Bounds img))) cols.
Proof.
  intros Hw Hh. unfold scanCols.
  destruct (Z.ltb_spec (X (Max (Bounds img))) 0) as [?|_]; [lia|].
  apply scan_ok; [|done]. intros x. by apply processCol_ok.
Qed.

Lemma scanRows_line (img : Image) (imageFormat : Z) (rows : list Z) (p : Z) :
  scanRows img imageFormat = Ok rows -> p ∈ rows ->
  exists y, 0 <= y < Y (Max (Bounds img)) /\ processRow img imageFormat y = Ok p.
Proof.
  unfold scanRows. destruct (Y (Max (Bounds img)) <? 0); [done|].
  apply scan_line.
Qed.

Lemma scanCols_line (img : Image) (imageFormat : Z) (cols : list Z) (p : Z) :
  scanCols img imageFormat = Ok cols -> p ∈ cols ->
  exists x, 0 <= x < X (Max (Bounds img)) /\ processCol img imageFormat x = Ok p.
Proof.
  unfold scanCols. destruct (X (Max (Bounds img)) <? 0); [done|].
  apply scan_line.
Qed.

(** A scan that succeeds on at least one line saw a line of the other
    axis that did not make the detector panic. *)
Lemma scanRows_Ok_bounds (img : Image) (imageFormat : Z) (rows : list Z) :
  scanRows img imageFormat = Ok rows ->
  0 <= Y (Max (Bounds img)) /\ len rows = Y (Max (Bounds img))
  /\ (rows <> [] -> 0 <= X (Max (Bounds img))).
Proof.
  unfold scanRows. intros Hrun.
  destruct (Z.ltb_spec (Y (Max (Bounds img))) 0) as [?|Hh]; [done|].
  split; [done|].
  assert (length rows = length (processRow img imageFormat
                                  <$> seqZ 0 (Y (Max (Bounds img))))) as Hlen.
  { apply Nat.le_antisymm.
    - destruct (decide (length rows <= length (processRow img imageFormat
                          <$> seqZ 0 (Y (Max (Bounds img)))))%nat) as [|Hgt]; [done|].
      destruct (lookup_lt_is_Some_2 rows
                  (length (processRow img imageFormat
                             <$> seqZ 0 (Y (Max (Bounds img)))))) as [v Hv]; [lia|].
      pose proof (collect_lookup _ _ Hrun _ _ Hv) as Hr.
      apply lookup_lt_Some in Hr. lia.
    - revert rows Hrun.
      induction (processRow img imageFormat <$> seqZ 0 (Y (Max (Bounds img))))
        as [|r rs IH]; intros rows Hrun; [simpl; lia|].
      simpl in Hrun. destruct r as [v0| |]; try discriminate.
      simpl in Hrun. destruct (collect rs) as [vs'| |]; try discriminate.
      injection Hrun as <-. simpl. specialize (IH vs' eq_refl). lia. }
  split.
  - unfold len. rewrite Hlen, length_fmap, length_seqZ. lia.
  - intros Hne. destruct rows as [|p rows']; [done|].
    destruct (scan_line _ _ _ p Hrun) as (y & _ & Hy); [apply list_elem_of_here|].
    destruct (Z.ltb_spec (X (Max (Bounds img))) 0) as [Hneg|]; [|done].
    unfold processRow in Hy.
    destruct (Z.ltb_spec (X (Max (Bounds img))) 0); [discriminate|lia].
Qed.

(** ** Selection for one axis *)

Lemma axis_run_elem (periods : list Z) (preferFrequency : bool) (tolerance : float)
  (p : Z) (share : float) :
  len periods < 2 ^ 63 ->
  axis_run periods preferFrequency tolerance p share -> p ∈ periods.
Proof.
  intros Hlen [arr pairs total p' share' Hperm Hrun Hsel].
  apply selectPeriod_elem in Hsel as [c Hc].
  assert (len arr < 2 ^ 63) as Hlen'.
  { unfold len in *. by rewrite (Permutation_length Hperm). }
  apply (frequencyPairs_run_elem arr preferFrequency pairs total Hlen' Hrun) in Hc
    as [Hc _].
  by rewrite <- Hperm.
Qed.

Lemma axis_run_exists (periods : list Z) (preferFrequency : bool) (tolerance : float) :
  periods <> [] -> len periods < 2 ^ 63 ->
  exists p share, axis_run periods preferFrequency tolerance p share.
Proof.
  intros Hne Hlen.
  pose proof (frequencyPairs_is_run periods preferFrequency) as Hrun.
  destruct (selectPeriod_nonempty (frequencyPairs periods preferFrequency).1
              (frequencyPairs periods preferFrequency).2
              (effectiveTolerance preferFrequency tolerance)) as (p & share & Hsel).
  { destruct periods as [|x rest]; [done|].
    assert ((x, occurrences x (x :: rest))
            ∈ (frequencyPairs (x :: rest) preferFrequency).1) as Hin.
    { apply (frequencyPairs_run_elem _ _ _ _ Hlen Hrun).
      split; [apply list_elem_of_here|done]. }
    intros Hnil. rewrite Hnil in Hin. by apply elem_of_nil in Hin. }
  exists p, share. by econstructor.
Qed.

Lemma axis_run_nil (preferFrequency : bool) (tolerance : float)
  (p : Z) (share : float) :
  ~ axis_run [] preferFrequency tolerance p share.
Proof.
  intros [arr pairs total p' share' Hperm Hrun Hsel].
  apply Permutation_nil_r in Hperm as ->.
  assert (pairs = []) as ->.
  { destruct pairs as [|[q c] rest]; [done|].
    assert ((q, c) ∈ (q, c) :: rest) as Hin by apply list_elem_of_here.
    apply (frequencyPairs_run_elem [] preferFrequency _ total) in Hin
      as [Hin _]; [|unfold len; simpl; lia|done].
    by apply elem_of_nil in Hin. }
  discriminate.
Qed.

(** ** The whole run *)

Lemma tile_run_sample :
  tile_run sample_image LOSSLESS false false defaultTolerance defaultTolerance 0 0 4 2
    (mkRGBA (toPixel <$> [mkRGBA64 256 0 0 65535; mkRGBA64 512 0 0 65535;
                          mkRGBA64 768 0 0 65535; mkRGBA64 1024 0 0 65535;
                          mkRGBA64 2816 0 0 65535; mkRGBA64 3072 0 0 65535;
                          mkRGBA64 3328 0 0 65535; mkRGBA64 3584 0 0 65535])
       4 (mkRectangle (mkPoint 0 0) (mkPoint 4 2))).
Proof.
  exists [4; 4], [2; 2; 2; 2],
    (float64_of_int 2 / float64_of_int 2 * 100)%float,
    (float64_of_int 4 / float64_of_int 4 * 100)%float.
  split; [vm_compute; reflexivity|]. split.
  { apply (axis_run_intro _ _ _ [4; 4] (frequencyPairs [4; 4] false).1
             (frequencyPairs [4; 4] false).2); [done|apply frequencyPairs_is_run|].
    vm_compute. reflexivity. }
  split; [vm_compute; reflexivity|]. split.
  { apply (axis_run_intro _ _ _ [2; 2; 2; 2] (frequencyPairs [2; 2; 2; 2] false).1
             (frequencyPairs [2; 2; 2; 2] false).2);
      [done|apply frequencyPairs_is_run|].
    vm_compute. reflexivity. }
  vm_compute. reflexivity.
Qed.

(** Scans that both deliver a period come from an image with a pixel. *)
Lemma scans_need_pixels (img : Image) (imageFormat : Z) (rows cols : list Z) :
  scanRows img imageFormat = Ok rows -> rows <> [] ->
  scanCols img imageFormat = Ok cols -> cols <> [] ->
  1 <= X (Max (Bounds img)) /\ 1 <= Y (Max (Bounds img)).
Proof.
  intros Hrows Hrne Hcols Hcne.
  destruct (scanRows_Ok_bounds _ _ _ Hrows) as (Hh & Hlen & Hw).
  specialize (Hw Hrne).
  assert (1 <= Y (Max (Bounds img))) as Hh1.
  { destruct rows; [done|]. unfold len in Hlen. simpl in Hlen. lia. }
  split; [|done].
  destruct (decide (X (Max (Bounds img)) = 0)) as [H0|]; [|lia].
  unfold scanCols in Hcols. rewrite H0 in Hcols. simpl in Hcols.
  injection Hcols as <-. done.
Qed.

(** X15.  No run yields a tile for an image without pixels: when
    [Max.X] or [Max.Y] of the bounds is below 1, a scan panics ([make]
    with a negative size, or the lossless detector on an empty line) or
    an axis is left without periods and the selection divides by zero. *)
Theorem tile_run_needs_pixels (img : Image) (imageFormat : Z)
  (rowPreferFrequency colPreferFrequency : bool) (rowTolerance colTolerance : float)
  (offsetX offsetY rowPeriodicity colPeriodicity : Z) (tile : RGBA) :
  tile_run img imageFormat rowPreferFrequency colPreferFrequency
    rowTolerance colTolerance offsetX offsetY rowPeriodicity colPeriodicity tile ->
  1 <= X (Max (Bounds img)) /\ 1 <= Y (Max (Bounds img)).
Proof.
  intros (rows & cols & rowShare & colShare & Hrows & Hrow & Hcols & Hcol & _).
  apply (scans_need_pixels img imageFormat rows cols); try done.
  - intros ->. by apply axis_run_nil in Hrow.
  - intros ->. by apply axis_run_nil in Hcol.
Qed.

Lemma tile_run_needs_pixels_witness :
  1 <= X (Max (Bounds sample_image)) /\ 1 <= Y (Max (Bounds sample_image)).
Proof. exact (tile_run_needs_pixels _ _ _ _ _ _ _ _ _ _ _ tile_run_sample). Defined.

(** X16.  Every image with at least one pixel whose bounds are of
    moderate size has a run that yields a tile, for every format, every
    pair of flags, tolerances and offsets: no step panics. *)
Theorem tile_run_exists (img : Image) (imageFormat : Z)
  (rowPreferFrequency colPreferFrequency : bool) (rowTolerance colTolerance : float)
  (offsetX offsetY : Z) :
  small_Rectangle (Bounds img) -> small offsetX -> small offsetY ->
  1 <= X (Max (Bounds img)) -> 1 <= Y (Max (Bounds img)) ->
  4 * X (Max (Bounds img)) * Y (Max (Bounds img)) < 2 ^ 63 ->
  exists rowPeriodicity colPeriodicity tile,
    tile_run img imageFormat rowPreferFrequency colPreferFrequency
      rowTolerance colTolerance offsetX offsetY rowPeriodicity colPeriodicity tile.
Proof.
  intros Hb Hox Hoy Hw Hh Hbuf.
  pose proof Hb as (_ & _ & HX & HY). unfold small in HX, HY.
  destruct (scanRows_ok img imageFormat) as (rows & Hrows & Hrlen & Hrall); [lia|lia|].
  destruct (scanCols_ok img imageFormat) as (cols & Hcols & Hclen & Hcall); [lia|lia|].
  destruct (axis_run_exists rows rowPreferFrequency rowTolerance)
    as (rp & rowShare & Hrow); [intros ->; unfold len in Hrlen; simpl in Hrlen; lia|lia|].
  destruct (axis_run_exists cols colPreferFrequency colTolerance)
    as (cp & colShare & Hcol); [intros ->; unfold len in Hclen; simpl in Hclen; lia|lia|].
  assert (len rows < 2 ^ 63) as Hrsmall by lia.
  assert (len cols < 2 ^ 63) as Hcsmall by lia.
  pose proof (axis_run_elem _ _ _ _ _ Hrsmall Hrow) as Hrp.
  pose proof (axis_run_elem _ _ _ _ _ Hcsmall Hcol) as Hcp.
  rewrite Forall_forall in Hrall, Hcall.
  apply Hrall in Hrp. apply Hcall in Hcp.
  destruct (cropTile_spec img rp cp offsetX offsetY) as (tile & Htile & _);
    [done|done|done|lia|lia|nia|].
  exists rp, cp, tile, rows, cols, rowShare, colShare. done.
Qed.

Lemma tile_run_exists_witness :
  exists rowPeriodicity colPeriodicity tile,
    tile_run sample_image LOSSY true false defaultTolerance defaultTolerance 1 0
      rowPeriodicity colPeriodicity tile.
Proof.
  apply tile_run_exists; vm_compute; try done; repeat split; discriminate.
Defined.

(** X17.  What every run yields.  The tile width is the period that
    [processRow] found for some row and lies between 1 and the image
    width; the tile height is the period of some column and lies between
    1 and the image height.  The tile has the rectangle
    [(0,0)-(width, height)] and each of its pixels is the source pixel at
    the offset, or zero where that falls outside the image; with bounds
    that start at the origin and zero offsets every pixel is copied: the
    tile is the top-left corner of the image. *)
Theorem tile_run_tile (img : Image) (imageFormat : Z)
  (rowPreferFrequency colPreferFrequency : bool) (rowTolerance colTolerance : float)
  (offsetX offsetY rowPeriodicity colPeriodicity : Z) (tile : RGBA) :
  small_Rectangle (Bounds img) -> small offsetX -> small offsetY ->
  4 * X (Max (Bounds img)) * Y (Max (Bounds img)) < 2 ^ 63 ->
  tile_run img imageFormat rowPreferFrequency colPreferFrequency
    rowTolerance colTolerance offsetX offsetY rowPeriodicity colPeriodicity tile ->
  (exists y, 0 <= y < Y (Max (Bounds img))
             /\ processRow img imageFormat y = Ok rowPeriodicity)
  /\ (exists x, 0 <= x < X (Max (Bounds img))
                /\ processCol img imageFormat x = Ok colPeriodicity)
  /\ 1 <= rowPeriodicity <= X (Max (Bounds img))
  /\ 1 <= colPeriodicity <= Y (Max (Bounds img))
  /\ RGBA_Rect tile = mkRectangle (mkPoint 0 0) (mkPoint rowPeriodicity colPeriodicity)
  /\ (forall x y, 0 <= x < rowPeriodicity -> 0 <= y < colPeriodicity ->
        RGBAAt tile x y
        = if In_Rect (offsetX + x) (offsetY + y) (Bounds img)
          then toPixel (At img (offsetX + x) (offsetY + y))
          else zeroPixel)
  /\ (Min (Bounds img) = mkPoint 0 0 -> offsetX = 0 -> offsetY = 0 ->
      forall x y, 0 <= x < rowPeriodicity -> 0 <= y < colPeriodicity ->
        RGBAAt tile x y = toPixel (At img x y)).
Proof.
  intros Hb Hox Hoy Hbuf Hrun.
  destruct Hrun as (rows & cols & rowShare & colShare
                    & Hrows & Hrow & Hcols & Hcol & Htile).
  destruct (scans_need_pixels img imageFormat rows cols) as [Hw Hh]; try done.
  { intros ->. by apply axis_run_nil in Hrow. }
  { intros ->. by apply axis_run_nil in Hcol. }
  pose proof Hb as (_ & _ & HX & HY). unfold small in HX, HY.
  destruct (scanRows_ok img imageFormat) as (rows' & Hrows' & Hrlen & Hrall);
    [lia|lia|].
  destruct (scanCols_ok img imageFormat) as (cols' & Hcols' & Hclen & Hcall);
    [lia|lia|].
  rewrite Hrows in Hrows'. injection Hrows' as <-.
  rewrite Hcols in Hcols'. injection Hcols' as <-.
  assert (len rows < 2 ^ 63) as Hrsmall by lia.
  assert (len cols < 2 ^ 63) as Hcsmall by lia.
  pose proof (axis_run_elem _ _ _ _ _ Hrsmall Hrow) as Hrp.
  pose proof (axis_run_elem _ _ _ _ _ Hcsmall Hcol) as Hcp.
  rewrite Forall_forall in Hrall, Hcall.
  pose proof (Hrall _ Hrp) as Hrp1. pose proof (Hcall _ Hcp) as Hcp1.
  destruct (cropTile_spec img rowPeriodicity colPeriodicity offsetX offsetY)
    as (tile' & Htile' & Hrect & _ & Hat); [done|done|done|lia|lia|nia|].
  rewrite Htile in Htile'. injection Htile' as <-.
  split; [by eapply scanRows_line|]. split; [by eapply scanCols_line|].
  split; [done|]. split; [done|]. split; [done|]. split; [done|].
  intros Hmin -> -> x y Hx Hy. rewrite Hat by done. rewrite !Z.add_0_l.
  assert (In_Rect x y (Bounds img) = true) as ->; [|done].
  apply In_Rect_true. rewrite Hmin. simpl. lia.
Qed.

Lemma tile_run_tile_witness :
  (exists y, 0 <= y < Y (Max (Bounds sample_image))
             /\ processRow sample_image LOSSLESS y = Ok 4)
  /\ (exists x, 0 <= x < X (Max (Bounds sample_image))
                /\ processCol sample_image LOSSLESS x = Ok 2)
  /\ 1 <= 4 <= X (Max (Bounds sample_image))
  /\ 1 <= 2 <= Y (Max (Bounds sample_image))
  /\ RGBA_Rect
       (mkRGBA (toPixel <$> [mkRGBA64 256 0 0 65535; mkRGBA64 512 0 0 65535;
                             mkRGBA64 768 0 0 65535; mkRGBA64 1024 0 0 65535;
                             mkRGBA64 2816 0 0 65535; mkRGBA64 3072 0 0 65535;
                             mkRGBA64 3328 0 0 65535; mkRGBA64 3584 0 0 65535])
          4 (mkRectangle (mkPoint 0 0) (mkPoint 4 2)))
     = mkRectangle (mkPoint 0 0) (mkPoint 4 2)
  /\ (forall x y, 0 <= x < 4 -> 0 <= y < 2 ->
        RGBAAt
          (mkRGBA (toPixel <$> [mkRGBA64 256 0 0 65535; mkRGBA64 512 0 0 65535;
                                mkRGBA64 768 0 0 65535; mkRGBA64 1024 0 0 65535;
                                mkRGBA64 2816 0 0 65535; mkRGBA64 3072 0 0 65535;
                                mkRGBA64 3328 0 0 65535; mkRGBA64 3584 0 0 65535])
             4 (mkRectangle (mkPoint 0 0) (mkPoint 4 2))) x y
        = if In_Rect (0 + x) (0 + y) (Bounds sample_image)
          then toPixel (At sample_image (0 + x) (0 + y))
          else zeroPixel)
  /\ (Min (Bounds sample_image) = mkPoint 0 0 -> 0 = 0 -> 0 = 0 ->
      forall x y, 0 <= x < 4 -> 0 <= y < 2 ->
        RGBAAt
          (mkRGBA (toPixel <$> [mkRGBA64 256 0 0 65535; mkRGBA64 512 0 0 65535;
                                mkRGBA64 768 0 0 65535; mkRGBA64 1024 0 0 65535;
                                mkRGBA64 2816 0 0 65535; mkRGBA64 3072 0 0 65535;
                                mkRGBA64 3328 0 0 65535; mkRGBA64 3584 0 0 65535])
             4 (mkRectangle (mkPoint 0 0) (mkPoint 4 2))) x y
        = toPixel (At sample_image x y)).
Proof.
  apply (tile_run_tile sample_image LOSSLESS false false
           defaultTolerance defaultTolerance 0 0 4 2).
  - vm_compute. repeat split; discriminate.
  - vm_compute. split; discriminate.
  - vm_compute. split; discriminate.
  - vm_compute. reflexivity.
  - exact tile_run_sample.
Defined.

(** ** The crop inside the image *)

(** X18.  When the requested rectangle lies in the source image the
    tile is an exact copy of it: every pixel of the tile is the source
    pixel at the offset. *)
Theorem cropTile_within_bounds (img : Image) (rowPeriod colPeriod offsetX offsetY : Z) :
  small_Rectangle (Bounds img) -> small offsetX -> small offsetY ->
  0 <= rowPeriod <= 2 ^ 61 -> 0 <= colPeriod <= 2 ^ 61 ->
  4 * rowPeriod * colPeriod < 2 ^ 63 ->
  ~ exceeds_bounds img rowPeriod colPeriod offsetX offsetY ->
  exists t,
    cropTile img rowPeriod colPeriod offsetX offsetY = Ok t
    /\ RGBA_Rect t = mkRectangle (mkPoint 0 0) (mkPoint rowPeriod colPeriod)
    /\ len (Pix t) = rowPeriod * colPeriod
    /\ forall x y, 0 <= x < rowPeriod -> 0 <= y < colPeriod ->
         RGBAAt t x y = toPixel (At img (offsetX + x) (offsetY + y)).
Proof.
  intros Hb Hox Hoy Htw Hth Hbuf Hin.
  destruct (cropTile_spec img rowPeriod colPeriod offsetX offsetY)
    as (t & Hrun & Hrect & Hlen & Hat); [done|done|done|done|done|done|].
  exists t. repeat (split; [done|]). intros x y Hx Hy. rewrite Hat by done.
  assert (In_Rect (offsetX + x) (offsetY + y) (Bounds img) = true) as ->; [|done].
  apply In_Rect_true. unfold exceeds_bounds in Hin. lia.
Qed.

Lemma cropTile_within_bounds_witness :
  exists t,
    cropTile sample_image 2 1 1 1 = Ok t
    /\ RGBA_Rect t = mkRectangle (mkPoint 0 0) (mkPoint 2 1)
    /\ len (Pix t) = 2 * 1
    /\ forall x y, 0 <= x < 2 -> 0 <= y < 1 ->
         RGBAAt t x y = toPixel (At sample_image (1 + x) (1 + y)).
Proof.
  apply cropTile_within_bounds.
  - vm_compute. repeat split; discriminate.
  - vm_compute. split; discriminate.
  - vm_compute. split; discriminate.
  - lia.
  - lia.
  - lia.
  - unfold exceeds_bounds. vm_compute. intros H. apply H. repeat split; discriminate.
Defined.

(** ** The lossy detector without wrap-around *)

(** X19.  On a line of 2 to 4096 colors with 16-bit channels no sum of
    the lossy detector wraps around: the shift it returns is the least
    shift that minimises the sum of [ColorDiff] taken over the integers. *)
Theorem ArrayPeriodicityJPGPlus_exact_argmin (colors : list Color) :
  Forall channel16 colors -> 2 <= len colors <= 4096 ->
  exists k,
    ArrayPeriodicityJPGPlus colors = Ok k
    /\ 1 <= k < len colors
    /\ forall k', 1 <= k' < len colors ->
         exactShiftSum colors k <= exactShiftSum colors k'
         /\ (exactShiftSum colors k' = exactShiftSum colors k -> k <= k').
Proof.
  intros Hall [Hlo Hhi].
  destruct (ArrayPeriodicityJPGPlus_least_argmin colors Hlo)
    as (k & sum & Hrun & Hk & Hsum & Hbest).
  exists k. split; [done|]. split; [done|]. intros k' Hk'.
  rewrite shiftSum_no_overflow in Hsum by (done || lia). injection Hsum as <-.
  destruct (Hbest k' Hk') as (sum' & Hsum' & Hle & Hfirst).
  rewrite shiftSum_no_overflow in Hsum' by (done || lia). injection Hsum' as <-.
  done.
Qed.

Lemma ArrayPeriodicityJPGPlus_exact_argmin_witness :
  let colors := [mkColor 10 20 30; mkColor 40 50 60; mkColor 10 20 30;
                 mkColor 40 50 61] in
  exists k,
    ArrayPeriodicityJPGPlus colors = Ok k
    /\ 1 <= k < len colors
    /\ forall k', 1 <= k' < len colors ->
         exactShiftSum colors k <= exactShiftSum colors k'
         /\ (exactShiftSum colors k' = exactShiftSum colors k -> k <= k').
Proof.
  intros colors. apply ArrayPeriodicityJPGPlus_exact_argmin.
  - repeat constructor; simpl; lia.
  - unfold len. simpl. lia.
Defined.


(** ** The image format *)

(** The loop of [path.Ext] returns nothing, or what it has read of the
    path, from the dot on. *)
Lemma Ext_loop_suffix (rev_path suffix : list ascii) :
  Ext_loop rev_path suffix = []
  \/ exists read rest,
       rev_path = read ++ rest
       /\ Ext_loop rev_path suffix = reverse read ++ suffix.
Proof.
  revert suffix. induction rev_path as [|c rest IH]; intros suffix; [by left|].
  simpl. destruct (c =? "/")%char; [by left|].
  destruct (c =? ".")%char.
  - right. exists [c], rest. done.
  - destruct (IH (c :: suffix)) as [Hnone|(read & rest' & -> & Hrun)]; [by left|].
    right. exists (c :: read), rest'. split; [done|].
    rewrite Hrun, reverse_cons, <- app_assoc. done.
Qed.

Lemma Ext_suffix (path : list ascii) :
  Ext path = [] \/ exists stem, path = stem ++ Ext path.
Proof.
  unfold Ext. destruct (Ext_loop_suffix (reverse path) [])
    as [Hnone|(read & rest & Hpath & Hrun)]; [by left|].
  right. exists (reverse rest). rewrite Hrun, app_nil_r.
  apply (inj reverse). rewrite reverse_app, !reverse_involutive. done.
Qed.

Lemma Ext_dot_png (path : list ascii) :
  Ext path = dot_png <-> exists stem, path = stem ++ dot_png.
Proof.
  split.
  - intros Hext. destruct (Ext_suffix path) as [Hnone|[stem Hstem]].
    + rewrite Hnone in Hext. discriminate.
    + exists stem. by rewrite <- Hext.
  - intros [stem ->]. unfold Ext. rewrite reverse_app. reflexivity.
Qed.

(** X20.  How [main] settles the image format.  It stops early exactly
    when both [-set-lossy] and [-set-lossless] are given.  It takes the
    lossless detector when [-set-lossless] alone is given, or when no
    flag is given and the input name ends in [.png], in lower case; in
    every other case it takes the lossy detector. *)
Theorem selectFormat_cases (setLossy setLossless : bool) (input : list ascii) :
  (selectFormat setLossy setLossless input = None
   <-> setLossy = true /\ setLossless = true)
  /\ (selectFormat setLossy setLossless input = Some LOSSLESS
      <-> setLossy = false
          /\ (setLossless = true \/ exists stem, input = stem ++ dot_png))
  /\ (selectFormat setLossy setLossless input = Some LOSSY
      <-> setLossless = false
          /\ (setLossy = true \/ ~ exists stem, input = stem ++ dot_png)).
Proof.
  unfold selectFormat. rewrite <- Ext_dot_png.
  destruct setLossy, setLossless; simpl;
    try case_bool_decide; unfold LOSSLESS, LOSSY; intuition congruence.
Qed.
